(** * Teltonika AVL parser: a shallow embedding of [teltonika_parser.py]

    The Python module is a pure function from a hex string to a list of
    decoded records.  Bytes objects are lists of [Byte.byte], Python
    integers are [Z], dictionaries are [gmap]s, and the two exceptions the
    code can meet ([IndexError] on [data[i]], [ValueError] on a negative
    shift count) are kept explicit in the [exc] monad.  Offsets are
    arbitrary Python integers, so slices and subscripts follow Python's
    rules for negative and out-of-range indices.  A [str] is a [string];
    [upper], [strip] and [fromhex] are given by their ASCII tables, the
    range hex text lives in (a character above it is neither whitespace
    nor a digit, and has no upper case).  The [while] loop of
    [parse_avl_data] takes fuel, and is shown to need no more than the
    length of the segment. *)

From Stdlib Require Import ZArith QArith Strings.Byte Ascii String List Lia.
From stdpp Require Import base option list gmap strings.

Local Open Scope Z_scope.

(** ** Exceptions *)

Inductive exn : Set := IndexError | ValueError.

Inductive exc (A : Type) : Type :=
  | Ok (a : A)
  | Raise (e : exn).
Arguments Ok {A} a.
Arguments Raise {A} e.

#[global] Instance exc_ret : MRet exc := fun A a => Ok a.
#[global] Instance exc_bind : MBind exc := fun A B f m =>
  match m with
  | Ok a => f a
  | Raise e => Raise e
  end.
#[global] Instance exc_fmap : FMap exc := fun A B f m =>
  match m with
  | Ok a => Ok (f a)
  | Raise e => Raise e
  end.

(** Outcome of one iteration of a [for] body that may [continue], [break]
    or [return]. *)
Inductive flow (A : Type) : Type :=
  | Continue
  | Break
  | Return (a : A).
Arguments Continue {A}.
Arguments Break {A}.
Arguments Return {A} a.

(** ** Bytes objects *)

Abbreviation bytes := (list byte).

Definition byte_val (b : byte) : Z := Z.of_N (Byte.to_N b).

(** [len(data)] *)
Definition len (data : bytes) : Z := Z.of_nat (length data).

(** How Python normalises one bound of [data[lo:hi]]. *)
Definition slice_bound (n i : Z) : Z :=
  if i <? 0 then Z.max (i + n) 0 else Z.min i n.

(** [data[lo:hi]] *)
Definition slice (data : bytes) (lo hi : Z) : bytes :=
  let a := slice_bound (len data) lo in
  let b := slice_bound (len data) hi in
  take (Z.to_nat (b - a)) (drop (Z.to_nat a) data).

(** [data[i]], an integer in [0, 255] or [IndexError]. *)
Definition index (data : bytes) (i : Z) : exc Z :=
  let j := if i <? 0 then i + len data else i in
  if (j <? 0) || (len data <=? j) then Raise IndexError
  else match data !! Z.to_nat j with
       | Some b => Ok (byte_val b)
       | None => Raise IndexError
       end.

(** [int.from_bytes(raw, "big")] *)
Definition from_bytes (raw : bytes) : Z :=
  fold_left (fun acc b => acc * 256 + byte_val b) raw 0.

(** [a << n]; Python raises [ValueError] on a negative shift count. *)
Definition lshift (a n : Z) : exc Z :=
  if n <? 0 then Raise ValueError else Ok (Z.shiftl a n).

(** ** Module constants *)

(** Days from 1970-01-01 to January 1st of [year] in the proleptic
    Gregorian calendar, as [datetime(year, 1, 1, tzinfo=utc).timestamp()]
    counts them. *)
Definition leap_days (y : Z) : Z := y / 4 - y / 100 + y / 400.
Definition epoch_days (year : Z) : Z :=
  365 * (year - 1970) + (leap_days (year - 1) - leap_days 1969).

Definition MIN_TS_MS : Z := epoch_days 2015 * 86400 * 1000.
Definition MAX_TS_MS : Z := epoch_days 2035 * 86400 * 1000.

(** The dictionary of axis ids, as the list of its items in insertion
    order (the order [.items()] iterates in). *)
Definition ACCEL_IO_IDS : list (Z * string) :=
  [(0x0011, "x"%string); (0x0012, "y"%string); (0x0013, "z"%string)].

(** ** Signed conversion *)

Definition _to_signed_int (value bits : Z) : exc Z :=
  threshold ← lshift 1 (bits - 1);
  mask ← lshift 1 bits;
  mret (if threshold <=? value then value - mask else value).

Definition _to_signed (raw : bytes) (bits : Z) : exc Z :=
  let value := from_bytes raw in
  _to_signed_int value bits.

(** ** Frame locator *)

Definition min_len : Z := 8 + 1 + 4 + 4 + 2 + 2 + 1 + 2.

Definition plausible_ts (ts : Z) : bool :=
  (MIN_TS_MS <=? ts) && (ts <=? MAX_TS_MS).

(** Body of the [for offset in range(...)] loop. *)
Definition find_body (data : bytes) (offset : Z) : exc (flow Z) :=
  let window := slice data offset (offset + 8) in
  if len window <? 8 then mret Break else
  let ts := from_bytes window in
  if negb (plausible_ts ts) then mret Continue else
  if len data <=? offset + 9 then mret Continue else
  priority ← index data (offset + 8);
  let sat_pos := offset + 8 + 1 + 4 + 4 + 2 + 2 in
  sats ← (if sat_pos <? len data then Some <$> index data sat_pos
          else mret None);
  if 3 <? priority then mret Continue else
  match sats with
  | Some s => if 32 <? s then mret Continue else mret (Return offset)
  | None => mret (Return offset)
  end.

(** [n] is the number of offsets left in the range. *)
Fixpoint find_loop (data : bytes) (n : nat) (offset : Z) : exc (option Z) :=
  match n with
  | O => mret None
  | S n' =>
      r ← find_body data offset;
      match r with
      | Continue => find_loop data n' (offset + 1)
      | Break => mret None
      | Return o => mret (Some o)
      end
  end.

Definition find_timestamp_offset (data : bytes) (start : Z) : exc (option Z) :=
  let stop := Z.max (len data - min_len) 0 in
  find_loop data (Z.to_nat (stop - start)) start.

(** ** Record decoder *)

(** [lon] and [lat] are the exact quotients raw / 10^7; Python stores the
    binary64 nearest to them. *)
Record AvlRecord : Type := mkAvlRecord {
  timestamp_ms : Z;
  priority : Z;
  lon : Q;
  lat : Q;
  altitude : Z;
  angle : Z;
  satellites : Z;
  speed : Z;
  accel : gmap string (option Z)
}.

(** State of a loop after one iteration: go on, or [break]. *)
Inductive loop_step (S : Type) : Type :=
  | Go (s : S)
  | Halt (s : S).
Arguments Go {S} s.
Arguments Halt {S} s.

(** [for _ in range(count)]: the (id, value) pairs of one width group. *)
Fixpoint read_entries (data : bytes) (size : Z) (count : nat) (ptr : Z)
    (entries : gmap Z Z) : gmap Z Z * Z :=
  match count with
  | O => (entries, ptr)
  | S count' =>
      let io_id := from_bytes (slice data ptr (ptr + 2)) in
      let ptr := ptr + 2 in
      let value := from_bytes (slice data ptr (ptr + size)) in
      let ptr := ptr + size in
      read_entries data size count' ptr (<[io_id := value]> entries)
  end.

(** Body of [for size in (1, 2, 4, 8)], on the pair (groups, ptr). *)
Definition parse_group (data : bytes) (size : Z)
    (st : gmap Z (gmap Z Z) * Z) : loop_step (gmap Z (gmap Z Z) * Z) :=
  let '(groups, ptr) := st in
  if len data - ptr <? 2 then Halt (groups, ptr) else
  let count := from_bytes (slice data ptr (ptr + 2)) in
  let ptr := ptr + 2 in
  if count =? 0 then Go (groups, ptr) else
  let needed := count * (2 + size) in
  if len data - ptr <? needed then Halt (groups, len data) else
  let '(entries, ptr) := read_entries data size (Z.to_nat count) ptr ∅ in
  Go (if decide (entries = ∅) then groups else <[size := entries]> groups, ptr).

Fixpoint parse_groups (data : bytes) (sizes : list Z)
    (st : gmap Z (gmap Z Z) * Z) : gmap Z (gmap Z Z) * Z :=
  match sizes with
  | [] => st
  | size :: rest =>
      match parse_group data size st with
      | Go st' => parse_groups data rest st'
      | Halt st' => st'
      end
  end.

(** [groups[size][io_id]] when both keys are present. *)
Definition group_get (groups : gmap Z (gmap Z Z)) (size io_id : Z) : option Z :=
  g ← groups !! size; g !! io_id.

(** The value [raw] computed for one axis id. *)
Definition accel_raw (groups : gmap Z (gmap Z Z)) (io_id : Z) : exc (option Z) :=
  match group_get groups 2 io_id with
  | Some v => Some <$> _to_signed_int v 16
  | None =>
      match group_get groups 1 io_id with
      | Some v => Some <$> _to_signed_int v 8
      | None => mret None
      end
  end.

(** [for io_id, axis in ACCEL_IO_IDS.items()] *)
Fixpoint extract_accel (groups : gmap Z (gmap Z Z)) (ids : list (Z * string))
    (accel_vals : gmap string (option Z)) : exc (gmap string (option Z)) :=
  match ids with
  | [] => mret accel_vals
  | (io_id, axis) :: rest =>
      raw ← accel_raw groups io_id;
      extract_accel groups rest (<[axis := raw]> accel_vals)
  end.

Definition accel_init : gmap string (option Z) :=
  <["z"%string := None]> (<["y"%string := None]> (<["x"%string := None]> ∅)).

Definition read_record (data : bytes) (ts_offset : Z)
    : exc (option AvlRecord * Z) :=
  let ptr := ts_offset in
  if len data - ptr <? 32 then mret (None, ts_offset + 1) else
  let ts := from_bytes (slice data ptr (ptr + 8)) in
  if negb (plausible_ts ts) then mret (None, ts_offset + 1) else
  let ptr := ptr + 8 in
  priority ← index data ptr;
  let ptr := ptr + 1 in
  lon ← _to_signed (slice data ptr (ptr + 4)) 32;
  let ptr := ptr + 4 in
  lat ← _to_signed (slice data ptr (ptr + 4)) 32;
  let ptr := ptr + 4 in
  altitude ← _to_signed (slice data ptr (ptr + 2)) 16;
  let ptr := ptr + 2 in
  let angle := from_bytes (slice data ptr (ptr + 2)) in
  let ptr := ptr + 2 in
  sats ← index data ptr;
  let ptr := ptr + 1 in
  let speed := from_bytes (slice data ptr (ptr + 2)) in
  let ptr := ptr + 2 in
  if len data - ptr <? 4 then mret (None, ts_offset + 1) else
  let event_id := from_bytes (slice data ptr (ptr + 2)) in
  let ptr := ptr + 2 in
  let total_io := from_bytes (slice data ptr (ptr + 2)) in
  let ptr := ptr + 2 in
  if 256 <? total_io then mret (None, ts_offset + 1) else
  let '(groups, ptr) := parse_groups data [1; 2; 4; 8] (∅, ptr) in
  accel_vals ← extract_accel groups ACCEL_IO_IDS accel_init;
  mret (Some (mkAvlRecord ts priority (lon # 10000000) (lat # 10000000)
                altitude angle sats speed accel_vals), ptr).

(** ** Segmenter

    A Python [str] is a [string]; the character operations are those of
    the ASCII range, where hex text lives. *)

Definition HEX_DELIMITER : string := "59D90010".

Definition char_code (c : ascii) : Z := Z.of_N (N_of_ascii c).

(** Characters removed by [str.strip()]. *)
Definition is_space (c : ascii) : bool :=
  let n := char_code c in
  ((9 <=? n) && (n <=? 13)) || ((28 <=? n) && (n <=? 32)).

(** Characters skipped by [bytes.fromhex] between two bytes. *)
Definition is_hex_space (c : ascii) : bool :=
  let n := char_code c in
  ((9 <=? n) && (n <=? 13)) || (n =? 32).

Definition upper_char (c : ascii) : ascii :=
  let n := char_code c in
  if (97 <=? n) && (n <=? 122) then ascii_of_N (Z.to_N (n - 32)) else c.

Fixpoint upper (s : string) : string :=
  match s with
  | EmptyString => EmptyString
  | String c s' => String (upper_char c) (upper s')
  end.

Fixpoint lstrip (s : string) : string :=
  match s with
  | EmptyString => EmptyString
  | String c s' => if is_space c then lstrip s' else s
  end.

Fixpoint rstrip (s : string) : string :=
  match s with
  | EmptyString => EmptyString
  | String c s' =>
      match rstrip s' with
      | EmptyString => if is_space c then EmptyString else String c EmptyString
      | r => String c r
      end
  end.

Definition strip (s : string) : string := rstrip (lstrip s).

(** Puts [c] in front of the fragment being read. *)
Definition push_char (c : ascii) (parts : list string) : list string :=
  match parts with
  | [] => [String c EmptyString]
  | cur :: rest => String c cur :: rest
  end.

(** [s.split(sep)] for a non-empty [sep]: occurrences are taken leftmost
    first and do not overlap; [skip] counts the characters of a matched
    separator still to be passed over. *)
Fixpoint split_from (sep s : string) (skip : nat) : list string :=
  match s with
  | EmptyString => [EmptyString]
  | String c s' =>
      match skip with
      | S k => split_from sep s' k
      | O =>
          if String.prefix sep s
          then EmptyString :: split_from sep s' (String.length sep - 1)
          else push_char c (split_from sep s' 0)
      end
  end.

Definition split (s sep : string) : list string := split_from sep s 0.

(** [part[:-1]] *)
Fixpoint drop_last (s : string) : string :=
  match s with
  | EmptyString => EmptyString
  | String c EmptyString => EmptyString
  | String c s' => String c (drop_last s')
  end.

Definition hex_digit (c : ascii) : option Z :=
  let n := char_code c in
  if (48 <=? n) && (n <=? 57) then Some (n - 48)
  else if (65 <=? n) && (n <=? 70) then Some (n - 55)
  else if (97 <=? n) && (n <=? 102) then Some (n - 87)
  else None.

Definition byte_of_Z (z : Z) : byte := byte_of_ascii (ascii_of_N (Z.to_N z)).

(** [bytes.fromhex(s)]; [None] is the [ValueError] it raises. *)
Fixpoint fromhex (s : string) : option bytes :=
  match s with
  | EmptyString => Some []
  | String c s' =>
      if is_hex_space c then fromhex s'
      else
        match hex_digit c, s' with
        | Some top, String d s'' =>
            match hex_digit d with
            | Some bot => cons (byte_of_Z (top * 16 + bot)) <$> fromhex s''
            | None => None
            end
        | _, _ => None
        end
  end.

(** Body of [for part in clean.split(HEX_DELIMITER)]: the segment yielded
    for [part], if any. *)
Definition segment_of_part (part : string) : option bytes :=
  if String.eqb part EmptyString then None else
  let part := if Nat.odd (String.length part) then drop_last part else part in
  fromhex part.

Definition iter_segments (raw_hex : string) : list bytes :=
  let clean := upper (strip raw_hex) in
  if String.eqb clean EmptyString then []
  else omap segment_of_part (split clean HEX_DELIMITER).

(** ** Stream decoder *)

(** One pass through the body of [while pos < len(segment)]: [None] when
    the loop ends, otherwise the record appended (if any) and the new
    [pos]. *)
Definition scan_step (segment : bytes) (pos : Z)
    : exc (option (option AvlRecord * Z)) :=
  if negb (pos <? len segment) then mret None else
  found ← find_timestamp_offset segment pos;
  match found with
  | None => mret None
  | Some ts_offset =>
      '(rec, next_pos) ← read_record segment ts_offset;
      match rec with
      | None => mret (Some (None, ts_offset + 1))
      | Some r => mret (Some (Some r, Z.max next_pos (ts_offset + 1)))
      end
  end.

(** The [while] loop; the outer [None] means that [fuel] iterations did
    not reach its end. *)
Fixpoint scan_segment (fuel : nat) (segment : bytes) (pos : Z)
    (records : list AvlRecord) : option (exc (list AvlRecord)) :=
  match fuel with
  | O => None
  | S fuel' =>
      match scan_step segment pos with
      | Raise e => Some (Raise e)
      | Ok None => Some (Ok records)
      | Ok (Some (None, pos')) => scan_segment fuel' segment pos' records
      | Ok (Some (Some r, pos')) =>
          scan_segment fuel' segment pos' (records ++ [r])
      end
  end.

(** [for segment in iter_segments(raw_hex)] *)
Fixpoint scan_segments (fuel : nat) (segments : list bytes)
    (records : list AvlRecord) : option (exc (list AvlRecord)) :=
  match segments with
  | [] => Some (Ok records)
  | segment :: rest =>
      match scan_segment fuel segment 0 records with
      | Some (Ok records') => scan_segments fuel rest records'
      | other => other
      end
  end.

Definition parse_avl_data (fuel : nat) (raw_hex : string)
    : option (exc (list AvlRecord)) :=
  scan_segments fuel (iter_segments raw_hex) [].

(** ** Vocabulary of the specification *)

(** Two's complement reading of [v] at width [bits]. *)
Definition twos_complement (bits v : Z) : Z :=
  if 2 ^ (bits - 1) <=? v then v - 2 ^ bits else v.

(** The three structural violations of the record decoder. *)
Definition structural_violation (data : bytes) (ts_offset : Z) : Prop :=
  len data - ts_offset < 32 ∨
  ¬ (MIN_TS_MS ≤ from_bytes (slice data ts_offset (ts_offset + 8)) ≤ MAX_TS_MS) ∨
  256 < from_bytes (slice data (ts_offset + 26) (ts_offset + 28)).

(** The IO groups a record at [ts_offset] is decoded with. *)
Definition io_groups (data : bytes) (ts_offset : Z) : gmap Z (gmap Z Z) :=
  (parse_groups data [1; 2; 4; 8] (∅, ts_offset + 28)).1.

(** What the axis of [io_id] must hold for the groups [groups]. *)
Definition axis_value (groups : gmap Z (gmap Z Z)) (io_id : Z) : option Z :=
  match group_get groups 2 io_id with
  | Some v => Some (twos_complement 16 v)
  | None => twos_complement 8 <$> group_get groups 1 io_id
  end.

(** The record built from the GPS block at [o], given its priority and
    satellite bytes and its accelerometer dictionary. *)
Definition decoded_record (data : bytes) (o p s : Z)
    (acc : gmap string (option Z)) : AvlRecord :=
  mkAvlRecord
    (from_bytes (slice data o (o + 8)))
    p
    (twos_complement 32 (from_bytes (slice data (o + 9) (o + 13))) # 10000000)
    (twos_complement 32 (from_bytes (slice data (o + 13) (o + 17))) # 10000000)
    (twos_complement 16 (from_bytes (slice data (o + 17) (o + 19))))
    (from_bytes (slice data (o + 19) (o + 21)))
    s
    (from_bytes (slice data (o + 22) (o + 24)))
    acc.

(** The accelerometer dictionary built from [groups]. *)
Definition accel_of (groups : gmap Z (gmap Z Z)) : gmap string (option Z) :=
  foldl (λ acc '(io_id, axis), <[axis := axis_value groups io_id]> acc)
        accel_init ACCEL_IO_IDS.

(** The bounds every emitted record is claimed to satisfy. *)
Definition record_in_bounds (r : AvlRecord) : Prop :=
  MIN_TS_MS ≤ timestamp_ms r ≤ MAX_TS_MS ∧
  priority r ∈ [0; 1; 2; 3] ∧
  0 ≤ satellites r ≤ 32.

(** Fuel that lets the scan of every segment in [segments] finish. *)
Definition enough_fuel (segments : list bytes) : nat :=
  S (foldr (λ segment n, Nat.max (length segment) n) O segments).

(** The timestamps of a decoding result. *)
Definition timestamps_of (res : option (exc (list AvlRecord)))
    : option (exc (list Z)) :=
  fmap (M := exc) (fmap (M := list) timestamp_ms) <$> res.

(** ** Sample frames

    [frame_a]: timestamp 1577836800000, priority 1, 9 satellites, one
    1-byte IO element (id 0x00EF); [frame_a_corrupt] is [frame_a] with one
    bit of that group's count flipped (0x0001 to 0x0101); [frame_b]:
    timestamp 1577836801000, priority 0, 12 satellites, no IO element. *)

Definition frame_a : string :=
  "0000016F5E66E800011DCD6500F776B668FFFB010E09003C00000001000100EF01000000000000".
Definition frame_a_corrupt : string :=
  "0000016F5E66E800011DCD6500F776B668FFFB010E09003C00000001010100EF01000000000000".
Definition frame_b : string :=
  "0000016F5E66EBE800089544001DDCA740012C005A0C0000000000000000000000000000".

(** The record [frame_b] decodes to. *)
Definition frame_b_record : AvlRecord :=
  mkAvlRecord 1577836801000 0 (144000000 # 10000000) (501000000 # 10000000)
              300 90 12 0 accel_init.

(** The bytes of a string of hex digits. *)
Definition hex_bytes (s : string) : bytes := default [] (fromhex s).

Definition frame_b_24 : string :=
  "0000016F5E66EBE800089544001DDCA740012C005A0C0000".
Definition frame_b_25 : string :=
  "0000016F5E66EBE800089544001DDCA740012C005A0C000000".

(** Two valid frames in one segment, and the records they decode to. *)
Definition two_frames : bytes := hex_bytes (frame_a ++ frame_b).
Definition two_frames_records : list AvlRecord :=
  Eval vm_compute in
    match parse_avl_data 80 (frame_a ++ frame_b) with
    | Some (Ok l) => l
    | _ => []
    end.


(** [frame_c]: a frame whose longitude and latitude bytes read as the
    timestamp 1577836803000; [frame_c_bad_total] is [frame_c] with its
    total IO count set to 257, which the decoder rejects. *)
Definition frame_c : string :=
  "0000016F5E66E800000000016F5E66F3B8012C005A0C0000000000000000000000000000".
Definition frame_c_bad_total : string :=
  "0000016F5E66E800000000016F5E66F3B8012C005A0C0000000001010000000000000000".
Definition rejected_with_candidate : bytes :=
  hex_bytes (frame_c_bad_total ++ frame_b).


(** The record (if any) the decoder returns at [o]. *)
Definition record_at (data : bytes) (o : Z) : option AvlRecord :=
  match read_record data o with
  | Ok (rec, _) => rec
  | Raise _ => None
  end.

(** The state of the group loop after the groups [sizes], when none of
    them left the loop. *)
Fixpoint groups_reached (data : bytes) (sizes : list Z)
    (st : gmap Z (gmap Z Z) * Z) : option (gmap Z (gmap Z Z) * Z) :=
  match sizes with
  | [] => Some st
  | size :: rest =>
      match parse_group data size st with
      | Go st' => groups_reached data rest st'
      | Halt _ => None
      end
  end.

(** The group of width [size] whose count is read at [ptr] declares more
    elements than the remaining bytes hold. *)
Definition truncated_group (data : bytes) (size ptr : Z) : Prop :=
  2 ≤ len data - ptr ∧
  from_bytes (slice data ptr (ptr + 2)) ≠ 0 ∧
  len data - (ptr + 2) < from_bytes (slice data ptr (ptr + 2)) * (2 + size).

(** A frame whose 2-byte group declares five elements where three fit;
    id 0x0011 is in its 1-byte group (value 5) and in the truncated group,
    ids 0x0012 and 0x0013 only in the truncated group. *)
Definition frame_truncated : string :=
  "0000016F5E66F3B80000000000000000000000000005000A00000004000100110500050011FFFE0012000200130003".

(** A frame with id 0x0011 in the 1-byte group (5) and the 2-byte group
    (0xFFFE), id 0x0012 in the 1-byte group (0x80) and the 4-byte group,
    id 0x0013 in the 2-byte group (0x7FFF). *)
Definition frame_accel : string :=
  "0000016F5E66EFD00200000000000000000000000005000A00000004000200110500128000020011FFFE00137FFF00010012000000010000".

Definition truncated_data : bytes := hex_bytes frame_truncated.

(** The groups parsed from [frame_truncated] before its truncated one. *)
Definition truncated_groups : gmap Z (gmap Z Z) := {[ 1 := {[ 0x0011 := 5 ]} ]}.

Definition accel_data : bytes := hex_bytes frame_accel.
Definition accel_record : AvlRecord :=
  Eval vm_compute in default frame_b_record (record_at accel_data 0).

(** ** Vocabulary of the segmenter *)

Fixpoint all_chars (P : ascii → bool) (s : string) : bool :=
  match s with
  | EmptyString => true
  | String c s' => P c && all_chars P s'
  end.

Fixpoint some_char (P : ascii → bool) (s : string) : bool :=
  match s with
  | EmptyString => false
  | String c s' => P c || some_char P s'
  end.

Definition is_hex_digit (c : ascii) : bool :=
  match hex_digit c with
  | Some _ => true
  | None => false
  end.

(** A character [bytes.fromhex] neither reads nor skips. *)
Definition invalid_hex_char (c : ascii) : bool :=
  negb (is_hex_digit c) && negb (is_hex_space c).

(** [sep] occurs somewhere in [s]. *)
Fixpoint occurs (sep s : string) : bool :=
  String.prefix sep s ||
  match s with
  | EmptyString => false
  | String _ s' => occurs sep s'
  end.

(** [n] copies of [d]. *)
Fixpoint copies (n : nat) (d : string) : string :=
  match n with
  | O => EmptyString
  | S n' => d ++ copies n' d
  end.

(** The part as it is handed to [bytes.fromhex]. *)
Definition truncated_part (part : string) : string :=
  if Nat.odd (String.length part) then drop_last part else part.

(** ** Vocabulary of the further properties *)

(** The three tests of the locator at [o]: timestamp in the window,
    priority byte at most 3, satellite byte at most 32. *)
Definition header_ok (data : bytes) (o : Z) : bool :=
  plausible_ts (from_bytes (slice data o (o + 8))) &&
  match index data (o + 8), index data (o + 21) with
  | Ok p, Ok s => (p <=? 3) && (s <=? 32)
  | _, _ => false
  end.

(** The ranges the wire widths give the fields of a record. *)
Definition record_in_wire_ranges (r : AvlRecord) : Prop :=
  0 ≤ priority r ≤ 255 ∧
  (∃ n, lon r = n # 10000000 ∧ - 2 ^ 31 ≤ n < 2 ^ 31) ∧
  (∃ n, lat r = n # 10000000 ∧ - 2 ^ 31 ≤ n < 2 ^ 31) ∧
  - 2 ^ 15 ≤ altitude r < 2 ^ 15 ∧
  0 ≤ angle r < 2 ^ 16 ∧
  0 ≤ satellites r ≤ 255 ∧
  0 ≤ speed r < 2 ^ 16 ∧
  (∀ axis, is_Some (accel r !! axis) ↔
           axis ∈ ["x"%string; "y"%string; "z"%string]) ∧
  (∀ axis v, accel r !! axis = Some (Some v) → - 2 ^ 15 ≤ v < 2 ^ 15).

(** Every value stored in a group fits the width of the group. *)
Definition groups_bounded (groups : gmap Z (gmap Z Z)) : Prop :=
  ∀ size g k v, groups !! size = Some g → g !! k = Some v →
                0 ≤ v < 256 ^ size.

(** The (id, value) pairs of a group as they stand on the wire: [count]
    pairs from [ptr], each a 2-byte id and a [size]-byte value. *)
Fixpoint wire_entries (data : bytes) (size : Z) (count : nat) (ptr : Z)
    : list (Z * Z) :=
  match count with
  | O => []
  | S count' =>
      (from_bytes (slice data ptr (ptr + 2)),
       from_bytes (slice data (ptr + 2) (ptr + 2 + size)))
      :: wire_entries data size count' (ptr + 2 + size)
  end.

(** The value of the last pair of [entries] whose id is [k]. *)
Fixpoint last_value (entries : list (Z * Z)) (k : Z) : option Z :=
  match entries with
  | [] => None
  | (k', v) :: rest =>
      match last_value rest k with
      | Some v' => Some v'
      | None => if decide (k = k') then Some v else None
      end
  end.

(** ** An encoder for the frames the decoder reads

    [to_bytes n v] is [v.to_bytes(n, "big")] for [0 <= v < 256 ^ n], as
    the test client uses it for its length prefix. *)
Fixpoint to_bytes (n : nat) (v : Z) : bytes :=
  match n with
  | O => []
  | S n' => to_bytes n' (v / 256) ++ [byte_of_Z (v mod 256)]
  end.

(** A frame before encoding: the GPS block, the event id and the total,
    and the (id, value) pairs of the four width groups. *)
Record Frame : Type := mkFrame {
  f_timestamp : Z;
  f_priority : Z;
  f_lon : Z;
  f_lat : Z;
  f_altitude : Z;
  f_angle : Z;
  f_satellites : Z;
  f_speed : Z;
  f_event : Z;
  f_total : Z;
  f_io1 : list (Z * Z);
  f_io2 : list (Z * Z);
  f_io4 : list (Z * Z);
  f_io8 : list (Z * Z)
}.

Definition encode_entry (size : nat) (kv : Z * Z) : bytes :=
  to_bytes 2 kv.1 ++ to_bytes size kv.2.

Definition encode_group (size : nat) (entries : list (Z * Z)) : bytes :=
  to_bytes 2 (Z.of_nat (length entries)) ++
  flat_map (encode_entry size) entries.

(** Signed fields go on the wire in two's complement. *)
Definition encode_frame (f : Frame) : bytes :=
  to_bytes 8 (f_timestamp f) ++
  to_bytes 1 (f_priority f) ++
  to_bytes 4 (f_lon f mod 2 ^ 32) ++
  to_bytes 4 (f_lat f mod 2 ^ 32) ++
  to_bytes 2 (f_altitude f mod 2 ^ 16) ++
  to_bytes 2 (f_angle f) ++
  to_bytes 1 (f_satellites f) ++
  to_bytes 2 (f_speed f) ++
  to_bytes 2 (f_event f) ++
  to_bytes 2 (f_total f) ++
  encode_group 1 (f_io1 f) ++
  encode_group 2 (f_io2 f) ++
  encode_group 4 (f_io4 f) ++
  encode_group 8 (f_io8 f).

Definition entries_wf (size : nat) (entries : list (Z * Z)) : Prop :=
  Z.of_nat (length entries) < 256 ^ 2 ∧
  Forall (λ kv, 0 ≤ kv.1 < 256 ^ 2 ∧ 0 ≤ kv.2 < 256 ^ Z.of_nat size) entries.

(** The fields fit their widths, the timestamp is in the window and the
    total is one the decoder lets pass. *)
Definition frame_wf (f : Frame) : Prop :=
  MIN_TS_MS ≤ f_timestamp f ≤ MAX_TS_MS ∧
  0 ≤ f_priority f < 256 ∧
  - 2 ^ 31 ≤ f_lon f < 2 ^ 31 ∧
  - 2 ^ 31 ≤ f_lat f < 2 ^ 31 ∧
  - 2 ^ 15 ≤ f_altitude f < 2 ^ 15 ∧
  0 ≤ f_angle f < 256 ^ 2 ∧
  0 ≤ f_satellites f < 256 ∧
  0 ≤ f_speed f < 256 ^ 2 ∧
  0 ≤ f_event f < 256 ^ 2 ∧
  0 ≤ f_total f ≤ 256 ∧
  entries_wf 1 (f_io1 f) ∧ entries_wf 2 (f_io2 f) ∧
  entries_wf 4 (f_io4 f) ∧ entries_wf 8 (f_io8 f).

(** The value of an axis: the last 2-byte element with its id, else the
    last 1-byte element with its id. *)
Definition frame_axis (f : Frame) (io_id : Z) : option Z :=
  match last_value (f_io2 f) io_id with
  | Some v => Some (twos_complement 16 v)
  | None => twos_complement 8 <$> last_value (f_io1 f) io_id
  end.

(** The record a frame stands for. *)
Definition frame_record (f : Frame) : AvlRecord :=
  mkAvlRecord (f_timestamp f) (f_priority f)
    (f_lon f # 10000000) (f_lat f # 10000000)
    (f_altitude f) (f_angle f) (f_satellites f) (f_speed f)
    (foldl (λ acc '(io_id, axis), <[axis := frame_axis f io_id]> acc)
           accel_init ACCEL_IO_IDS).

(** A frame the locator accepts. *)
Definition frame_locatable (f : Frame) : Prop :=
  f_priority f ≤ 3 ∧ f_satellites f ≤ 32.

(** A sample frame: both accelerometer groups, a repeated id. *)
Definition sample_frame : Frame :=
  mkFrame 1577836800000 1 500000000 (-143215000) (-5) 270 9 60 0 4
          [(0x0011, 5); (0x0012, 0x80); (0x0011, 7)]
          [(0x0013, 0xFFFE)] [] [].

(** [groups[size] = entries], unless [entries] is empty. *)
Definition put_group (size : Z) (entries : gmap Z Z)
    (groups : gmap Z (gmap Z Z)) : gmap Z (gmap Z Z) :=
  if decide (entries = ∅) then groups else <[size := entries]> groups.

(** The dictionary the pairs [entries] are collected in. *)
Definition entries_map (entries : list (Z * Z)) : gmap Z Z :=
  foldl (λ e '(k, v), <[k := v]> e) ∅ entries.

(** ** Hex text

    [hex bs] is [bs.hex()]: two lower-case digits per byte. *)
Definition hex_char (n : Z) : ascii :=
  ascii_of_N (Z.to_N (if n <? 10 then 48 + n else 87 + n)).

Fixpoint hex (bs : bytes) : string :=
  match bs with
  | [] => EmptyString
  | b :: bs' =>
      String (hex_char (byte_val b / 16))
        (String (hex_char (byte_val b mod 16)) (hex bs'))
  end.

(** The bytes of all the frames of a stream, one behind the other. *)
Definition encode_frames (fs : list Frame) : bytes :=
  concat (encode_frame <$> fs).


(** Text in the ASCII range, where [upper] and [strip] are Python's
    [str.upper] and [str.strip]. *)
Definition ascii_char (c : ascii) : bool := char_code c <? 128.

Definition ascii_text (s : string) : bool := all_chars ascii_char s.

(** The end of a line, as a text read from a file has it. *)
Definition line_end : string := String "010"%char EmptyString.
(** ** Proof tactics *)

(** Folds the chain [ptr += k] of the decoder into one offset. *)
Ltac norm_offsets :=
  repeat match goal with
         | |- context [?x + Zpos ?a + Zpos ?b] =>
             let c := eval vm_compute in (Zpos a + Zpos b) in
             replace (x + Zpos a + Zpos b) with (x + c) by lia
         end.

(** Decides the character comparisons of a prefix test, outermost first. *)
Ltac case_chars :=
  repeat match goal with
         | |- (if ascii_dec ?a ?b then _ else _) = _ =>
             destruct (ascii_dec a b); [try congruence | try done]
         end.

(** ** Bytes, slices and subscripts *)

Lemma byte_val_range (b : byte) : 0 ≤ byte_val b ≤ 255.
Proof.
  unfold byte_val. pose proof (Byte.to_N_bounded b). lia.
Qed.

Lemma len_nonneg (data : bytes) : 0 ≤ len data.
Proof. unfold len. lia. Qed.

Lemma from_bytes_snoc (raw : bytes) (b : byte) :
  from_bytes (raw ++ [b]) = from_bytes raw * 256 + byte_val b.
Proof. unfold from_bytes. by rewrite fold_left_app. Qed.

Lemma from_bytes_range (raw : bytes) :
  0 ≤ from_bytes raw < 256 ^ len raw.
Proof.
  induction raw as [|b raw IH] using rev_ind.
  - change (0 ≤ 0 < 1). lia.
  - rewrite from_bytes_snoc. unfold len in *. rewrite length_app. cbn [length].
    replace (Z.of_nat (length raw + 1)) with (Z.of_nat (length raw) + 1) by lia.
    rewrite Z.pow_add_r, Z.pow_1_r by lia.
    pose proof (byte_val_range b). lia.
Qed.

Lemma slice_bound_range (n i : Z) : 0 ≤ n → 0 ≤ slice_bound n i ≤ n.
Proof. unfold slice_bound. destruct (i <? 0) eqn:E; lia. Qed.

Lemma len_slice (data : bytes) (lo hi : Z) :
  len (slice data lo hi) =
  Z.max (slice_bound (len data) hi - slice_bound (len data) lo) 0.
Proof.
  pose proof (len_nonneg data) as Hn.
  pose proof (slice_bound_range (len data) lo Hn).
  pose proof (slice_bound_range (len data) hi Hn).
  unfold slice, len in *. rewrite length_take, length_drop. lia.
Qed.

(** Inside the buffer a slice has the length asked for. *)
Lemma len_slice_inside (data : bytes) (lo hi : Z) :
  0 ≤ lo → lo ≤ hi → hi ≤ len data → len (slice data lo hi) = hi - lo.
Proof.
  intros. rewrite len_slice. unfold slice_bound.
  destruct (lo <? 0) eqn:E1; destruct (hi <? 0) eqn:E2; lia.
Qed.

(** A slice that ends at or before [-len] is empty. *)
Lemma slice_empty_low (data : bytes) (lo hi : Z) :
  hi ≤ - len data → slice data lo hi = [].
Proof.
  intros Hhi. pose proof (len_nonneg data) as Hn.
  pose proof (slice_bound_range (len data) lo Hn).
  unfold slice. replace (slice_bound (len data) hi) with 0.
  - replace (Z.to_nat (0 - slice_bound (len data) lo)) with O by lia. done.
  - unfold slice_bound. destruct (hi <? 0) eqn:E; lia.
Qed.

Lemma index_ok (data : bytes) (i : Z) :
  - len data ≤ i < len data → ∃ v, index data i = Ok v ∧ 0 ≤ v ≤ 255.
Proof.
  intros Hi. unfold index.
  set (j := if i <? 0 then i + len data else i).
  assert (0 ≤ j < len data) as Hj by (subst j; destruct (i <? 0) eqn:E; lia).
  replace ((j <? 0) || (len data <=? j)) with false
    by (symmetry; apply orb_false_iff; split; lia).
  destruct (lookup_lt_is_Some_2 data (Z.to_nat j)) as [b Hb].
  { unfold len in Hj. lia. }
  rewrite Hb. exists (byte_val b). split; [done | apply byte_val_range].
Qed.

(** ** Plausible timestamps *)

Lemma plausible_ts_spec (ts : Z) :
  plausible_ts ts = true ↔ MIN_TS_MS ≤ ts ≤ MAX_TS_MS.
Proof. unfold plausible_ts. rewrite andb_true_iff. lia. Qed.

(** 2015-01-01 and 2035-01-01, 00:00 UTC, in milliseconds. *)
Lemma timestamp_window :
  MIN_TS_MS = 1420070400000 ∧ MAX_TS_MS = 2051222400000.
Proof. split; reflexivity. Qed.

(** A plausible window is not empty, so it ends above [-len]. *)
Lemma plausible_window_bound (data : bytes) (o : Z) :
  plausible_ts (from_bytes (slice data o (o + 8))) = true →
  - len data < o + 8.
Proof.
  intros Hp. destruct (Z_lt_le_dec (- len data) (o + 8)) as [|Hle]; [done|].
  rewrite (slice_empty_low data o (o + 8) Hle) in Hp. discriminate Hp.
Qed.

(** ** Signed conversion *)

Lemma to_signed_int_ok (v bits : Z) :
  1 ≤ bits → _to_signed_int v bits = Ok (twos_complement bits v).
Proof.
  intros Hb. unfold _to_signed_int, lshift, twos_complement.
  replace (bits - 1 <? 0) with false by lia.
  replace (bits <? 0) with false by lia.
  cbn [mbind exc_bind mret exc_ret]. by rewrite !Z.shiftl_1_l.
Qed.

(** C8: signed conversion is the two's complement reading at the declared
    width: for every value [v] and every width [b] of at least one bit the
    result is [v - 2^b] when [v >= 2^(b-1)] and [v] otherwise; the 16-bit
    raw value 0x8000 decodes to -32768 and 0x7FFF to 32767. *)
Theorem to_signed_int_twos_complement :
  (∀ v b : Z, 1 ≤ b →
     (2 ^ (b - 1) ≤ v → _to_signed_int v b = Ok (v - 2 ^ b)) ∧
     (v < 2 ^ (b - 1) → _to_signed_int v b = Ok v)) ∧
  _to_signed_int 0x8000 16 = Ok (-32768) ∧
  _to_signed_int 0x7FFF 16 = Ok 32767.
Proof.
  split; [|split; reflexivity].
  intros v b Hb. rewrite to_signed_int_ok by done. unfold twos_complement.
  split; intros Hv.
  - replace (2 ^ (b - 1) <=? v) with true by lia. done.
  - replace (2 ^ (b - 1) <=? v) with false by lia. done.
Qed.

Lemma to_signed_int_twos_complement_witness :
  _to_signed_int 200 8 = Ok (-56) ∧ _to_signed_int 100 8 = Ok 100.
Proof.
  destruct (proj1 to_signed_int_twos_complement 200 8 ltac:(lia)) as [Hhi _].
  destruct (proj1 to_signed_int_twos_complement 100 8 ltac:(lia)) as [_ Hlo].
  split; [apply Hhi; lia | apply Hlo; lia].
Defined.

(** ** Frame locator *)

Section locator.
  Context (data : bytes).

(** The three ways the loop body can end; it never raises. *)
Lemma find_body_cases (o : Z) :
  (find_body data o = Ok Break ∧ len (slice data o (o + 8)) < 8) ∨
  find_body data o = Ok Continue ∨
  (find_body data o = Ok (Return o) ∧
   plausible_ts (from_bytes (slice data o (o + 8))) = true ∧
   o + 9 < len data ∧
   (∃ p, index data (o + 8) = Ok p ∧ 0 ≤ p ≤ 3) ∧
   (o + 21 < len data → ∃ s, index data (o + 21) = Ok s ∧ 0 ≤ s ≤ 32)).
Proof.
  unfold find_body. cbv zeta.
  destruct (len (slice data o (o + 8)) <? 8) eqn:Ewin.
  { left. split; [done | lia]. }
  destruct (plausible_ts (from_bytes (slice data o (o + 8)))) eqn:Ets;
    cbn [negb]; [| right; left; done].
  destruct (len data <=? o + 9) eqn:Elen; [right; left; done |].
  pose proof (plausible_window_bound data o Ets) as Hlow.
  destruct (index_ok data (o + 8)) as (p & Hp & Hpr); [lia |].
  rewrite Hp. cbn [mbind exc_bind].
  replace (o + 8 + 1 + 4 + 4 + 2 + 2) with (o + 21) by lia.
  destruct (o + 21 <? len data) eqn:Esat.
  - destruct (index_ok data (o + 21)) as (s & Hs & Hsr); [lia |].
    rewrite Hs. cbn [fmap exc_fmap mbind exc_bind].
    destruct (3 <? p) eqn:Ep; [right; left; done |].
    destruct (32 <? s) eqn:Es; [right; left; done |].
    right; right. repeat split; try done; try lia.
    + exists p. split; [done | lia].
    + intros _. exists s. split; [done | lia].
  - cbn [mret exc_ret mbind exc_bind].
    destruct (3 <? p) eqn:Ep; [right; left; done |].
    right; right. repeat split; try done; try lia.
    exists p. split; [done | lia].
Qed.

Lemma find_body_return (o r : Z) :
  find_body data o = Ok (Return r) →
  r = o ∧
  plausible_ts (from_bytes (slice data o (o + 8))) = true ∧
  (∃ p, index data (o + 8) = Ok p ∧ 0 ≤ p ≤ 3) ∧
  (o + 21 < len data → ∃ s, index data (o + 21) = Ok s ∧ 0 ≤ s ≤ 32).
Proof.
  intros H.
  destruct (find_body_cases o) as [[H' _] | [H' | (H' & ? & ? & ? & ?)]];
    rewrite H' in H; try discriminate H.
  injection H as <-. done.
Qed.

(** What a match of the loop over [n] offsets from [start] tells. *)
Lemma find_loop_some (n : nat) (start o : Z) :
  find_loop data n start = Ok (Some o) →
  start ≤ o < start + Z.of_nat n ∧ find_body data o = Ok (Return o).
Proof.
  revert start. induction n as [|n IH]; intros start H; [discriminate H |].
  cbn [find_loop] in H.
  destruct (find_body_cases start) as [[H' _] | [H' | (H' & _)]];
    rewrite H' in H; cbn [mbind exc_bind mret exc_ret] in H.
  - discriminate H.
  - apply IH in H. split; [lia | apply H].
  - injection H as <-. split; [lia | done].
Qed.

Lemma find_loop_total (n : nat) (start : Z) :
  ∃ r, find_loop data n start = Ok r.
Proof.
  revert start. induction n as [|n IH]; intros start; [by exists None |].
  cbn [find_loop].
  destruct (find_body_cases start) as [[H' _] | [H' | (H' & _)]];
    rewrite H'; cbn [mbind exc_bind mret exc_ret]; eauto.
Qed.

Lemma find_timestamp_offset_total (start : Z) :
  ∃ r, find_timestamp_offset data start = Ok r.
Proof. apply find_loop_total. Qed.

(** A located offset: it is at or after [start], before the end of the
    scanned range, and passed the three plausibility checks. *)
Lemma find_timestamp_offset_some (start o : Z) :
  find_timestamp_offset data start = Ok (Some o) →
  start ≤ o < Z.max (len data - min_len) 0 ∧
  plausible_ts (from_bytes (slice data o (o + 8))) = true ∧
  (∃ p, index data (o + 8) = Ok p ∧ 0 ≤ p ≤ 3) ∧
  (o + 21 < len data → ∃ s, index data (o + 21) = Ok s ∧ 0 ≤ s ≤ 32).
Proof.
  unfold find_timestamp_offset. cbv zeta. intros H.
  apply find_loop_some in H as [Hr Hb].
  apply find_body_return in Hb as (_ & Hts & Hp & Hs).
  repeat split; try done; lia.
Qed.

(** The range is empty when at most [min_len] bytes follow [start]. *)
Lemma find_timestamp_offset_short (start : Z) :
  0 ≤ start → len data - start ≤ min_len →
  find_timestamp_offset data start = Ok None.
Proof.
  intros H0 Hlen. unfold find_timestamp_offset. cbv zeta.
  replace (Z.to_nat (Z.max (len data - min_len) 0 - start)) with O by lia.
  done.
Qed.

(** The loop returns the first offset its body accepts, as long as that
    offset is within the range. *)
Lemma find_loop_first (n : nat) (start o : Z) :
  start ≤ o < start + Z.of_nat n →
  (∀ k, start ≤ k < o → find_body data k = Ok Continue) →
  find_body data o = Ok (Return o) →
  find_loop data n start = Ok (Some o).
Proof.
  revert start. induction n as [|n IH]; intros start Hr Hskip Hb; [lia |].
  cbn [find_loop]. destruct (Z.eq_dec start o) as [-> | Hne].
  - by rewrite Hb.
  - rewrite Hskip by lia. cbn [mbind exc_bind].
    apply IH; [lia | | done]. intros k Hk. apply Hskip. lia.
Qed.

(** Every offset with more than [min_len] bytes remaining is examined. *)
Lemma find_timestamp_offset_first (start o : Z) :
  start ≤ o < len data - min_len →
  (∀ k, start ≤ k < o → find_body data k = Ok Continue) →
  find_body data o = Ok (Return o) →
  find_timestamp_offset data start = Ok (Some o).
Proof.
  intros Hr Hskip Hb. unfold find_timestamp_offset. cbv zeta.
  apply find_loop_first; [lia | done | done].
Qed.

End locator.

(** ** Record decoder *)

Lemma accel_raw_ok (groups : gmap Z (gmap Z Z)) (io_id : Z) :
  accel_raw groups io_id = Ok (axis_value groups io_id).
Proof.
  unfold accel_raw, axis_value.
  destruct (group_get groups 2 io_id) as [v|].
  - by rewrite to_signed_int_ok.
  - destruct (group_get groups 1 io_id) as [v|]; [|done].
    by rewrite to_signed_int_ok.
Qed.

Lemma extract_accel_ok (groups : gmap Z (gmap Z Z)) (ids : list (Z * string))
    (acc : gmap string (option Z)) :
  extract_accel groups ids acc =
  Ok (foldl (λ acc '(io_id, axis), <[axis := axis_value groups io_id]> acc)
            acc ids).
Proof.
  revert acc. induction ids as [|[io_id axis] ids IH]; intros acc; [done|].
  cbn [extract_accel foldl]. rewrite accel_raw_ok. cbn [mbind exc_bind].
  apply IH.
Qed.

Lemma axis_x_id : (0x0011, "x"%string) ∈ ACCEL_IO_IDS.
Proof. apply elem_of_cons. by left. Qed.

Lemma axis_y_id : (0x0012, "y"%string) ∈ ACCEL_IO_IDS.
Proof. apply elem_of_cons. right. apply elem_of_cons. by left. Qed.

Lemma axis_z_id : (0x0013, "z"%string) ∈ ACCEL_IO_IDS.
Proof. do 2 (apply elem_of_cons; right). apply elem_of_cons. by left. Qed.

(** Each axis of the dictionary holds the value of its own IO id. *)
Lemma accel_of_lookup (groups : gmap Z (gmap Z Z)) (io_id : Z) (axis : string) :
  (io_id, axis) ∈ ACCEL_IO_IDS →
  accel_of groups !! axis = Some (axis_value groups io_id).
Proof.
  unfold accel_of, ACCEL_IO_IDS. cbn [foldl].
  rewrite !elem_of_cons, elem_of_nil.
  intros [H | [H | [H | []]]]; injection H as -> ->.
  - rewrite lookup_insert_ne by done. rewrite lookup_insert_ne by done.
    apply lookup_insert_eq.
  - rewrite lookup_insert_ne by done. apply lookup_insert_eq.
  - apply lookup_insert_eq.
Qed.

(** Without a structural violation the decoder returns the record of the
    GPS block at [o], with the accelerometer values of the parsed groups,
    and the cursor where group parsing stopped. *)
Lemma read_record_decodes (data : bytes) (o : Z) :
  32 ≤ len data - o →
  plausible_ts (from_bytes (slice data o (o + 8))) = true →
  from_bytes (slice data (o + 26) (o + 28)) ≤ 256 →
  ∃ p s,
    index data (o + 8) = Ok p ∧ 0 ≤ p ≤ 255 ∧
    index data (o + 21) = Ok s ∧ 0 ≤ s ≤ 255 ∧
    read_record data o =
      Ok (Some (decoded_record data o p s (accel_of (io_groups data o))),
          (parse_groups data [1; 2; 4; 8] (∅, o + 28)).2).
Proof.
  intros Hlen Hts Htot.
  pose proof (plausible_window_bound data o Hts) as Hlow.
  destruct (index_ok data (o + 8)) as (p & Hp & Hpr); [lia |].
  destruct (index_ok data (o + 21)) as (s & Hs & Hsr); [lia |].
  exists p, s. repeat split; try done; try lia.
  unfold read_record, _to_signed. cbv zeta. norm_offsets.
  replace (len data - o <? 32) with false by lia.
  rewrite Hts. cbn [negb]. rewrite Hp. cbn [mbind exc_bind].
  rewrite !to_signed_int_ok by lia. cbn [mbind exc_bind].
  rewrite Hs. cbn [mbind exc_bind].
  replace (len data - (o + 24) <? 4) with false by lia.
  replace (256 <? from_bytes (slice data (o + 26) (o + 28))) with false by lia.
  unfold io_groups.
  destruct (parse_groups data [1; 2; 4; 8] (∅, o + 28)) as [groups ptr].
  rewrite extract_accel_ok. done.
Qed.

(** The three early returns, one per structural violation. *)
Lemma read_record_rejects (data : bytes) (o : Z) :
  structural_violation data o → read_record data o = Ok (None, o + 1).
Proof.
  intros Hv. unfold read_record, _to_signed. cbv zeta. norm_offsets.
  destruct (len data - o <? 32) eqn:Elen; [done |].
  destruct (plausible_ts (from_bytes (slice data o (o + 8)))) eqn:Ets;
    cbn [negb]; [| done].
  pose proof (plausible_window_bound data o Ets) as Hlow.
  destruct (index_ok data (o + 8)) as (p & Hp & Hpr); [lia |].
  destruct (index_ok data (o + 21)) as (s & Hs & Hsr); [lia |].
  rewrite Hp. cbn [mbind exc_bind].
  rewrite !to_signed_int_ok by lia. cbn [mbind exc_bind].
  rewrite Hs. cbn [mbind exc_bind].
  replace (len data - (o + 24) <? 4) with false by lia.
  destruct Hv as [Hv | [Hv | Hv]].
  - lia.
  - apply plausible_ts_spec in Ets. done.
  - replace (256 <? from_bytes (slice data (o + 26) (o + 28))) with true by lia.
    done.
Qed.

Lemma structural_violation_dec (data : bytes) (o : Z) :
  structural_violation data o ∨
  (32 ≤ len data - o ∧
   plausible_ts (from_bytes (slice data o (o + 8))) = true ∧
   from_bytes (slice data (o + 26) (o + 28)) ≤ 256).
Proof.
  unfold structural_violation.
  destruct (Z_lt_le_dec (len data - o) 32); [by left; left |].
  destruct (plausible_ts (from_bytes (slice data o (o + 8)))) eqn:Ets.
  - destruct (Z_lt_le_dec 256 (from_bytes (slice data (o + 26) (o + 28)))).
    + left. right. by right.
    + right. done.
  - left. right. left. intros H. apply plausible_ts_spec in H. congruence.
Qed.

(** C2: for every buffer and every offset the decoder returns normally;
    it returns no record exactly when a structural violation occurs (fewer
    than 32 bytes remaining, a timestamp outside the window, or a total IO
    count above 256), the next offset is then the candidate offset plus
    one, and without a violation a record is returned. *)
Theorem read_record_failure_policy (data : bytes) (ts_offset : Z) :
  ∃ rec next_offset,
    read_record data ts_offset = Ok (rec, next_offset) ∧
    (rec = None ↔ structural_violation data ts_offset) ∧
    (rec = None → next_offset = ts_offset + 1) ∧
    (¬ structural_violation data ts_offset → ∃ r, rec = Some r).
Proof.
  destruct (structural_violation_dec data ts_offset) as [Hv | (Hlen & Hts & Htot)].
  - exists None, (ts_offset + 1). rewrite read_record_rejects by done.
    repeat split; done.
  - destruct (read_record_decodes data ts_offset Hlen Hts Htot)
      as (p & s & _ & _ & _ & _ & Hr).
    eexists _, _. split; [exact Hr |].
    assert (¬ structural_violation data ts_offset) as Hnv.
    { unfold structural_violation. apply plausible_ts_spec in Hts.
      intros [H | [H | H]]; [lia | done | lia]. }
    repeat split; try done. eauto.
Qed.

Lemma read_record_failure_policy_witness :
  ∃ rec next_offset,
    read_record (hex_bytes frame_b_25) 0 = Ok (rec, next_offset) ∧
    (rec = None ↔ structural_violation (hex_bytes frame_b_25) 0) ∧
    (rec = None → next_offset = 0 + 1) ∧
    (¬ structural_violation (hex_bytes frame_b_25) 0 → ∃ r, rec = Some r).
Proof. exact (read_record_failure_policy (hex_bytes frame_b_25) 0). Defined.

(** ** Locator and decoder together *)

(** C3: a buffer of exactly 24 bytes that holds a plausible record header
    is not matched: the loop body accepts offset 0, where [min_len] bytes
    remain, but the range of the loop is empty. *)
Theorem find_timestamp_offset_skips_exact_fit :
  len (hex_bytes frame_b_24) = min_len ∧
  find_body (hex_bytes frame_b_24) 0 = Ok (Return 0) ∧
  find_timestamp_offset (hex_bytes frame_b_24) 0 = Ok None.
Proof. vm_compute. repeat split; reflexivity. Qed.

(** C4 as stated fails: the locator returns offset 0 of a 25-byte
    segment, and the decoder leaves by its first check there. *)
Lemma located_offset_fails_length_check :
  find_timestamp_offset (hex_bytes frame_b_25) 0 = Ok (Some 0) ∧
  len (hex_bytes frame_b_25) - 0 < 32 ∧
  read_record (hex_bytes frame_b_25) 0 = Ok (None, 1).
Proof. vm_compute. repeat split; reflexivity. Qed.

(** C4 (amended): at every offset the locator returns for a start that
    is not negative, at least [min_len] = 24 bytes remain, so a candidate
    without room for a minimal GPS block is rejected by the locator; the
    decoder's own check for 32 bytes can still fail there, and the decoder
    then returns no record and the offset plus one. *)
Theorem located_offset_has_gps_block (segment : bytes) (start o : Z) :
  0 ≤ start →
  find_timestamp_offset segment start = Ok (Some o) →
  min_len ≤ len segment - o ∧
  (len segment - o < 32 → read_record segment o = Ok (None, o + 1)).
Proof.
  intros Hstart Hf.
  apply find_timestamp_offset_some in Hf as [Hr _].
  split; [lia |].
  intros Hlt. apply read_record_rejects. by left.
Qed.

Lemma located_offset_has_gps_block_witness :
  min_len ≤ len (hex_bytes frame_b_25) - 0 ∧
  (len (hex_bytes frame_b_25) - 0 < 32 →
   read_record (hex_bytes frame_b_25) 0 = Ok (None, 0 + 1)).
Proof.
  apply (located_offset_has_gps_block (hex_bytes frame_b_25) 0 0).
  - lia.
  - vm_compute. reflexivity.
Defined.

(** ** IO groups and accelerometer axes *)

Lemma parse_groups_reached (data : bytes) (pre rest : list Z)
    (st st' : gmap Z (gmap Z Z) * Z) :
  groups_reached data pre st = Some st' →
  parse_groups data (pre ++ rest) st = parse_groups data rest st'.
Proof.
  revert st. induction pre as [|size pre IH]; intros st H.
  - by injection H as <-.
  - cbn [groups_reached] in H. cbn [app parse_groups].
    destruct (parse_group data size st) as [st1|st1]; [by apply IH | discriminate H].
Qed.

Lemma parse_group_truncated (data : bytes) (size ptr : Z)
    (groups : gmap Z (gmap Z Z)) :
  truncated_group data size ptr →
  parse_group data size (groups, ptr) = Halt (groups, len data).
Proof.
  intros (Hrem & Hcount & Hneed). unfold parse_group. cbv zeta.
  replace (len data - ptr <? 2) with false by lia.
  replace (from_bytes (slice data ptr (ptr + 2)) =? 0) with false by lia.
  replace (len data - (ptr + 2) <?
           from_bytes (slice data ptr (ptr + 2)) * (2 + size)) with true by lia.
  done.
Qed.

(** A group only writes the key of its own width. *)
Lemma parse_group_keys (data : bytes) (size k : Z)
    (st st' : gmap Z (gmap Z Z) * Z) :
  parse_group data size st = Go st' → k ≠ size → st'.1 !! k = st.1 !! k.
Proof.
  destruct st as [groups ptr]. unfold parse_group. cbv zeta.
  destruct (len data - ptr <? 2); [discriminate |].
  destruct (from_bytes (slice data ptr (ptr + 2)) =? 0).
  { intros H _. by injection H as <-. }
  destruct (len data - (ptr + 2) <? _); [discriminate |].
  destruct (read_entries data size _ (ptr + 2) ∅) as [entries ptr'].
  intros H Hk. injection H as <-. cbn [fst].
  destruct (decide (entries = ∅)); [done |]. by rewrite lookup_insert_ne.
Qed.

Lemma groups_reached_keys (data : bytes) (pre : list Z) (k : Z)
    (st st' : gmap Z (gmap Z Z) * Z) :
  groups_reached data pre st = Some st' → k ∉ pre → st'.1 !! k = st.1 !! k.
Proof.
  revert st. induction pre as [|size pre IH]; intros st H Hk.
  - by injection H as <-.
  - cbn [groups_reached] in H. apply not_elem_of_cons in Hk as [Hne Hk].
    destruct (parse_group data size st) as [st1|st1] eqn:E; [| discriminate H].
    rewrite (IH _ H Hk). by eapply parse_group_keys.
Qed.

Lemma no_violation_decodes (data : bytes) (o : Z) :
  ¬ structural_violation data o →
  ∃ p s,
    index data (o + 8) = Ok p ∧ index data (o + 21) = Ok s ∧
    read_record data o =
      Ok (Some (decoded_record data o p s (accel_of (io_groups data o))),
          (parse_groups data [1; 2; 4; 8] (∅, o + 28)).2).
Proof.
  intros Hnv.
  destruct (structural_violation_dec data o) as [Hv | (Hlen & Hts & Htot)];
    [done |].
  destruct (read_record_decodes data o Hlen Hts Htot)
    as (p & s & Hp & _ & Hs & _ & Hr).
  by exists p, s.
Qed.

(** C5: when the record at [o] passes the structural checks and the group
    loop, having parsed the groups [pre], reaches a group of nonzero count
    for which fewer than count * (2 + width) bytes remain, the decoder
    abandons that group and the later ones, still returns the record of
    the GPS block at [o], reports the end of the segment as next offset,
    and every axis whose id is in no parsed group is [None]. *)
Theorem read_record_truncated_group (data : bytes) (o : Z)
    (pre post : list Z) (size : Z) (groups : gmap Z (gmap Z Z)) (ptr : Z) :
  ¬ structural_violation data o →
  [1; 2; 4; 8] = pre ++ size :: post →
  groups_reached data pre (∅, o + 28) = Some (groups, ptr) →
  truncated_group data size ptr →
  (∀ k, k ∈ size :: post → groups !! k = None) ∧
  ∃ p s,
    index data (o + 8) = Ok p ∧ index data (o + 21) = Ok s ∧
    read_record data o =
      Ok (Some (decoded_record data o p s (accel_of groups)), len data) ∧
    ∀ io_id axis, (io_id, axis) ∈ ACCEL_IO_IDS →
      accel_of groups !! axis = Some (axis_value groups io_id) ∧
      (group_get groups 1 io_id = None → group_get groups 2 io_id = None →
       accel_of groups !! axis = Some None).
Proof.
  intros Hnv Hsizes Hreach Htrunc.
  assert (parse_groups data [1; 2; 4; 8] (∅, o + 28) = (groups, len data)) as Hpg.
  { rewrite Hsizes, (parse_groups_reached _ _ _ _ _ Hreach).
    cbn [parse_groups]. by rewrite parse_group_truncated. }
  split.
  - intros k Hk.
    assert (NoDup (pre ++ size :: post)) as Hnd.
    { rewrite <- Hsizes. compute_done. }
    apply NoDup_app in Hnd as (_ & Hdisj & _).
    pose proof (groups_reached_keys _ _ k _ _ Hreach) as Hkeep.
    cbn [fst] in Hkeep. rewrite Hkeep; [apply lookup_empty |].
    intros Hin. by apply (Hdisj k).
  - destruct (no_violation_decodes data o Hnv) as (p & s & Hp & Hs & Hr).
    unfold io_groups in Hr. rewrite Hpg in Hr. cbn [fst snd] in Hr.
    exists p, s. repeat split; try done.
    + by apply accel_of_lookup.
    + intros H1 H2. rewrite (accel_of_lookup groups io_id axis) by done.
      unfold axis_value. by rewrite H2, H1.
Qed.

Lemma read_record_truncated_group_witness :
  ∃ p s,
    read_record truncated_data 0 =
      Ok (Some (decoded_record truncated_data 0 p s (accel_of truncated_groups)),
          len truncated_data) ∧
    accel_of truncated_groups !! "x"%string = Some (Some 5) ∧
    accel_of truncated_groups !! "y"%string = Some None ∧
    accel_of truncated_groups !! "z"%string = Some None.
Proof.
  destruct (read_record_truncated_group truncated_data 0 [1] [4; 8] 2
              truncated_groups 33)
    as (_ & p & s & _ & _ & Hr & Hax).
  - intros [H | [H | H]]; vm_compute in H; [discriminate H | | discriminate H].
    apply H. split; discriminate.
  - reflexivity.
  - vm_compute. reflexivity.
  - repeat split; vm_compute; congruence.
  - exists p, s. split; [exact Hr |]. split; [| split].
    + destruct (Hax 0x0011 "x"%string) as [Hx _]; [apply axis_x_id |].
      rewrite Hx. vm_compute. reflexivity.
    + apply (Hax 0x0012); [apply axis_y_id | reflexivity | reflexivity].
    + apply (Hax 0x0013); [apply axis_z_id | reflexivity | reflexivity].
Defined.

(** C6: in a decoded record each axis holds the value its id has in the
    2-byte group read as signed 16-bit whenever the id is in that group,
    otherwise the value it has in the 1-byte group read as signed 8-bit,
    otherwise [None]; the 4-byte and 8-byte groups play no part. *)
Theorem read_record_accel_preference :
  (∀ data o r next, read_record data o = Ok (Some r, next) →
     ∀ io_id axis, (io_id, axis) ∈ ACCEL_IO_IDS →
       accel r !! axis =
       Some (match group_get (io_groups data o) 2 io_id with
             | Some v => Some (twos_complement 16 v)
             | None =>
                 match group_get (io_groups data o) 1 io_id with
                 | Some v => Some (twos_complement 8 v)
                 | None => None
                 end
             end)) ∧
  (∀ groups groups' : gmap Z (gmap Z Z),
     groups !! 1 = groups' !! 1 → groups !! 2 = groups' !! 2 →
     extract_accel groups ACCEL_IO_IDS accel_init =
     extract_accel groups' ACCEL_IO_IDS accel_init).
Proof.
  split.
  - intros data o r next Hr io_id axis Hin.
    destruct (structural_violation_dec data o) as [Hv | (Hlen & Hts & Htot)].
    { rewrite (read_record_rejects _ _ Hv) in Hr. discriminate Hr. }
    destruct (read_record_decodes data o Hlen Hts Htot)
      as (p & s & _ & _ & _ & _ & Hr').
    rewrite Hr' in Hr. injection Hr as <- _. cbn [accel decoded_record].
    rewrite (accel_of_lookup _ io_id axis Hin). unfold axis_value.
    by destruct (group_get (io_groups data o) 2 io_id),
                (group_get (io_groups data o) 1 io_id).
  - intros groups groups' H1 H2. rewrite !extract_accel_ok. f_equal.
    unfold ACCEL_IO_IDS. cbn [foldl]. unfold axis_value, group_get.
    by rewrite H1, H2.
Qed.

Lemma read_record_accel_preference_witness :
  accel accel_record !! "x"%string = Some (Some (-2)) ∧
  accel accel_record !! "y"%string = Some (Some (-128)) ∧
  accel accel_record !! "z"%string = Some (Some 32767).
Proof.
  destruct read_record_accel_preference as [Hpref _].
  assert (read_record accel_data 0 = Ok (Some accel_record, 56)) as Hr
    by (vm_compute; reflexivity).
  split; [| split].
  - rewrite (Hpref _ _ _ _ Hr 0x0011 "x"%string axis_x_id).
    vm_compute. reflexivity.
  - rewrite (Hpref _ _ _ _ Hr 0x0012 "y"%string axis_y_id).
    vm_compute. reflexivity.
  - rewrite (Hpref _ _ _ _ Hr 0x0013 "z"%string axis_z_id).
    vm_compute. reflexivity.
Defined.

(** ** Stream decoder *)

Section scan.
  Context (segment : bytes).

(** One iteration of the scan: either the loop ends, or the locator
    returned an offset [o] and the decoder either rejected it (cursor
    [o + 1]) or decoded a record there. *)
Lemma scan_step_cases (pos : Z) :
  (scan_step segment pos = Ok None ∧
   (len segment ≤ pos ∨ find_timestamp_offset segment pos = Ok None)) ∨
  (∃ o, pos < len segment ∧
        find_timestamp_offset segment pos = Ok (Some o) ∧
        ((structural_violation segment o ∧
          read_record segment o = Ok (None, o + 1) ∧
          scan_step segment pos = Ok (Some (None, o + 1))) ∨
         (¬ structural_violation segment o ∧
          ∃ p s,
            index segment (o + 8) = Ok p ∧ index segment (o + 21) = Ok s ∧
            let r := decoded_record segment o p s
                       (accel_of (io_groups segment o)) in
            let next := (parse_groups segment [1; 2; 4; 8] (∅, o + 28)).2 in
            read_record segment o = Ok (Some r, next) ∧
            scan_step segment pos = Ok (Some (Some r, Z.max next (o + 1)))))).
Proof.
  unfold scan_step.
  destruct (pos <? len segment) eqn:Epos; cbn [negb];
    [| left; split; [done | left; lia]].
  destruct (find_timestamp_offset_total segment pos) as [[o|] Hf];
    rewrite Hf; cbn [mbind exc_bind]; [| left; split; [done | by right]].
  right. exists o. split; [lia |]. split; [done |].
  destruct (structural_violation_dec segment o) as [Hv | (Hlen & Hts & Htot)].
  - left. rewrite read_record_rejects by done. done.
  - right. split.
    { unfold structural_violation. apply plausible_ts_spec in Hts.
      intros [H | [H | H]]; [lia | done | lia]. }
    destruct (read_record_decodes segment o Hlen Hts Htot)
      as (p & s & Hp & _ & Hs & _ & Hr).
    exists p, s. cbv zeta. rewrite Hr. done.
Qed.

(** The cursor moves strictly forward in every iteration. *)
Lemma scan_step_advances (pos pos' : Z)
    (rec : option AvlRecord) :
  scan_step segment pos = Ok (Some (rec, pos')) →
  pos < len segment ∧
  ∃ o, find_timestamp_offset segment pos = Ok (Some o) ∧
       pos ≤ o ∧ o + 1 ≤ pos' ∧ (rec = None → pos' = o + 1).
Proof.
  intros H.
  destruct (scan_step_cases pos)
    as [[H' _] | (o & Hpos & Hf & [(_ & _ & H') | (_ & p & s & _ & _ & H')])].
  - rewrite H' in H. discriminate H.
  - rewrite H' in H. injection H as <- <-. split; [done |]. exists o.
    pose proof (find_timestamp_offset_some _ _ _ Hf) as [Hr _].
    repeat split; try done; lia.
  - cbv zeta in H'. destruct H' as [_ H']. rewrite H' in H.
    injection H as <- <-. split; [done |]. exists o.
    pose proof (find_timestamp_offset_some _ _ _ Hf) as [Hr _].
    repeat split; try done; lia.
Qed.

(** A record appended by an iteration is within the bounds the locator
    checked at its offset. *)
Lemma scan_step_record_in_bounds (pos pos' : Z)
    (r : AvlRecord) :
  scan_step segment pos = Ok (Some (Some r, pos')) → record_in_bounds r.
Proof.
  intros H.
  destruct (scan_step_cases pos)
    as [[H' _] | (o & Hpos & Hf & [(_ & _ & H') | (Hnv & p & s & Hp & Hs & H')])].
  - rewrite H' in H. discriminate H.
  - rewrite H' in H. discriminate H.
  - cbv zeta in H'. destruct H' as [_ H']. rewrite H' in H.
    injection H as <- <-.
    apply find_timestamp_offset_some in Hf as (_ & Hts & (p' & Hp' & Hpr) & Hsat).
    assert (o + 21 < len segment) as Hlt.
    { unfold structural_violation in Hnv. lia. }
    destruct (Hsat Hlt) as (s' & Hs' & Hsr).
    rewrite Hp in Hp'. injection Hp' as <-.
    rewrite Hs in Hs'. injection Hs' as <-.
    unfold record_in_bounds, decoded_record. cbn.
    apply plausible_ts_spec in Hts. repeat split; try lia.
    assert (p = 0 ∨ p = 1 ∨ p = 2 ∨ p = 3) as Hcases by lia.
    rewrite !elem_of_cons. tauto.
Qed.

(** The scan keeps what it was given and only appends. *)
Lemma scan_segment_Forall (P : AvlRecord → Prop)
    (fuel : nat) (pos : Z) (records out : list AvlRecord) :
  (∀ pos r pos', scan_step segment pos = Ok (Some (Some r, pos')) → P r) →
  Forall P records →
  scan_segment fuel segment pos records = Some (Ok out) →
  Forall P out.
Proof.
  intros Hstep. revert pos records.
  induction fuel as [|fuel IH]; intros pos records Hrec H; [discriminate H |].
  cbn [scan_segment] in H.
  destruct (scan_step segment pos) as [[[[r|] pos']|]|e] eqn:E.
  - eapply IH; [| exact H]. apply Forall_app. split; [done |].
    apply Forall_singleton. eapply Hstep, E.
  - eapply IH; [| exact H]. done.
  - by injection H as <-.
  - discriminate H.
Qed.

(** With more fuel than bytes left, the scan returns a list. *)
Lemma scan_segment_terminates (fuel : nat) (pos : Z)
    (records : list AvlRecord) :
  (Z.to_nat (len segment - pos) < fuel)%nat →
  ∃ out, scan_segment fuel segment pos records = Some (Ok out).
Proof.
  revert pos records. induction fuel as [|fuel IH]; intros pos records Hf; [lia |].
  cbn [scan_segment].
  destruct (scan_step segment pos) as [[[rec pos']|]|e] eqn:E.
  - apply scan_step_advances in E as (Hpos & o & _ & Ho & Hpos' & _).
    destruct rec as [r|]; apply IH; lia.
  - by exists records.
  - destruct (scan_step_cases pos)
      as [[H' _] | (o & _ & _ & [(_ & _ & H') | (_ & p & s & _ & _ & _ & H')])];
      rewrite H' in E; discriminate E.
Qed.

(** The result no longer depends on the fuel once there is enough. *)
Lemma scan_segment_fuel (fuel fuel' : nat) (pos : Z)
    (records : list AvlRecord) (res : exc (list AvlRecord)) :
  scan_segment fuel segment pos records = Some res →
  (fuel ≤ fuel')%nat →
  scan_segment fuel' segment pos records = Some res.
Proof.
  revert fuel' pos records.
  induction fuel as [|fuel IH]; intros fuel' pos records H Hle; [discriminate H |].
  destruct fuel' as [|fuel']; [lia |].
  cbn [scan_segment] in *.
  destruct (scan_step segment pos) as [[[[r|] pos']|]|e]; try done;
    apply IH; [done | lia | done | lia].
Qed.


(** An iteration at a cursor from which the locator finds [o]. *)
Lemma scan_step_located (pos o : Z) :
  find_timestamp_offset segment pos = Ok (Some o) →
  scan_step segment pos =
  ('(rec, next_pos) ← read_record segment o;
   match rec with
   | None => mret (Some (None, o + 1))
   | Some r => mret (Some (Some r, Z.max next_pos (o + 1)))
   end).
Proof.
  intros Hf. unfold scan_step.
  pose proof (find_timestamp_offset_some _ _ _ Hf) as [Hr _].
  pose proof (len_nonneg segment). unfold min_len in Hr.
  replace (pos <? len segment) with true by lia. cbn [negb].
  rewrite Hf. done.
Qed.



End scan.

(** *** All segments *)

Lemma scan_segments_Forall (P : AvlRecord → Prop) (fuel : nat)
    (segments : list bytes) (records out : list AvlRecord) :
  (∀ segment pos r pos',
     scan_step segment pos = Ok (Some (Some r, pos')) → P r) →
  Forall P records →
  scan_segments fuel segments records = Some (Ok out) →
  Forall P out.
Proof.
  intros Hstep. revert records.
  induction segments as [|segment rest IH]; intros records Hrec H.
  - by injection H as <-.
  - cbn [scan_segments] in H.
    destruct (scan_segment fuel segment 0 records) as [[mid|e]|] eqn:E;
      try discriminate H.
    eapply IH; [| exact H].
    eapply scan_segment_Forall; [apply Hstep | exact Hrec | exact E].
Qed.

Lemma enough_fuel_cons (segment : bytes) (rest : list bytes) :
  (length segment < enough_fuel (segment :: rest))%nat ∧
  (enough_fuel rest ≤ enough_fuel (segment :: rest))%nat.
Proof. unfold enough_fuel. cbn [foldr]. lia. Qed.

Lemma scan_segments_terminate (segments : list bytes)
    (records : list AvlRecord) :
  ∃ out, ∀ fuel, (enough_fuel segments ≤ fuel)%nat →
    scan_segments fuel segments records = Some (Ok out).
Proof.
  revert records. induction segments as [|segment rest IH]; intros records.
  - by exists records.
  - pose proof (enough_fuel_cons segment rest) as [Hseg Hrest].
    destruct (scan_segment_terminates segment (enough_fuel (segment :: rest))
                0 records) as [mid Hmid].
    { unfold len. lia. }
    destruct (IH mid) as [out Hout]. exists out. intros fuel Hfuel.
    cbn [scan_segments].
    rewrite (scan_segment_fuel _ _ fuel _ _ _ Hmid Hfuel).
    apply Hout. lia.
Qed.

(** C1: for every input hex string [parse_avl_data] returns a list, and
    every record of the list it returns has its timestamp in
    [MIN_TS_MS, MAX_TS_MS], its priority in {0,1,2,3} and at most 32
    satellites: the decoder re-checks only the timestamp, but it is only
    run at offsets where the locator checked the same two bytes. *)
Theorem parse_avl_data_records_in_bounds (raw_hex : string) :
  (∃ records,
     (∀ fuel, (enough_fuel (iter_segments raw_hex) ≤ fuel)%nat →
        parse_avl_data fuel raw_hex = Some (Ok records)) ∧
     Forall record_in_bounds records) ∧
  (∀ fuel records,
     parse_avl_data fuel raw_hex = Some (Ok records) →
     Forall record_in_bounds records).
Proof.
  assert (∀ fuel records,
            parse_avl_data fuel raw_hex = Some (Ok records) →
            Forall record_in_bounds records) as Hbounds.
  { unfold parse_avl_data. intros fuel records H.
    eapply scan_segments_Forall; [| apply Forall_nil_2 | exact H].
    intros segment pos r pos'. apply scan_step_record_in_bounds. }
  split; [| exact Hbounds].
  destruct (scan_segments_terminate (iter_segments raw_hex) []) as [records Hrec].
  exists records. split; [exact Hrec |].
  apply (Hbounds (enough_fuel (iter_segments raw_hex))). by apply Hrec.
Qed.

Lemma parse_avl_data_records_in_bounds_witness :
  length two_frames_records = 2%nat ∧
  Forall record_in_bounds two_frames_records.
Proof.
  split; [reflexivity |].
  apply (proj2 (parse_avl_data_records_in_bounds (frame_a ++ frame_b)) 80%nat).
  vm_compute. reflexivity.
Defined.


(** ** Segmenter *)

Lemma drop_last_snoc (p : string) (c : ascii) :
  drop_last (p ++ String c EmptyString) = p.
Proof.
  induction p as [|a p IH]; [done |].
  destruct p as [|b p]; [done |].
  change (drop_last (String a (String b p ++ String c EmptyString))
          = String a (String b p)).
  change (String a (drop_last (String b p ++ String c EmptyString))
          = String a (String b p)).
  by rewrite IH.
Qed.

Lemma length_snoc (p : string) (c : ascii) :
  String.length (p ++ String c EmptyString) = S (String.length p).
Proof.
  induction p as [|a p IH]; [done |].
  change (S (String.length (p ++ String c EmptyString))
          = S (S (String.length p))).
  by rewrite IH.
Qed.

(** An odd-length part loses exactly its last character. *)
Lemma segment_of_part_odd (p : string) (c : ascii) :
  Nat.even (String.length p) = true →
  segment_of_part (p ++ String c EmptyString) = fromhex p.
Proof.
  intros Heven. unfold segment_of_part.
  rewrite length_snoc, Nat.odd_succ, Heven, drop_last_snoc.
  destruct p; done.
Qed.

Lemma hex_digit_not_space (c : ascii) :
  is_hex_digit c = true → is_hex_space c = false.
Proof.
  unfold is_hex_digit, hex_digit, is_hex_space. cbv zeta.
  generalize (char_code c). intros n.
  destruct ((48 <=? n) && (n <=? 57)) eqn:E1; [intros _; lia |].
  destruct ((65 <=? n) && (n <=? 70)) eqn:E2; [intros _; lia |].
  destruct ((97 <=? n) && (n <=? 102)) eqn:E3; [intros _; lia | done].
Qed.

(** Hex digits in pairs always convert, to half as many bytes. *)
Lemma fromhex_pairs (n : nat) (s : string) :
  String.length s = (2 * n)%nat → all_chars is_hex_digit s = true →
  ∃ bs, fromhex s = Some bs ∧ length bs = n.
Proof.
  revert s. induction n as [|n IH]; intros s Hlen Hall.
  - destruct s; [by exists [] | discriminate Hlen].
  - destruct s as [|a [|b s]];
      [exfalso; cbn [String.length] in Hlen; lia ..|].
    cbn [all_chars] in Hall. cbn [String.length] in Hlen.
    apply andb_true_iff in Hall as [Ha Hall].
    apply andb_true_iff in Hall as [Hb Hall].
    destruct (IH s) as (bs & Hbs & Hl); [lia | done |].
    cbn [fromhex]. rewrite (hex_digit_not_space a Ha).
    unfold is_hex_digit in Ha, Hb.
    destruct (hex_digit a) as [top|]; [| discriminate Ha].
    destruct (hex_digit b) as [bot|]; [| discriminate Hb].
    rewrite Hbs. eexists. split; [done |]. cbn. by rewrite Hl.
Qed.

(** A character that is neither a digit nor skipped makes the conversion
    fail wherever it stands. *)
Lemma fromhex_invalid (n : nat) (s : string) :
  (String.length s ≤ n)%nat → some_char invalid_hex_char s = true →
  fromhex s = None.
Proof.
  revert s. induction n as [|n IH]; intros s Hlen Hsome.
  { destruct s; [discriminate Hsome | cbn in Hlen; lia]. }
  destruct s as [|a s]; [discriminate Hsome |].
  cbn [some_char] in Hsome. cbn [String.length] in Hlen. cbn [fromhex].
  unfold invalid_hex_char at 1, is_hex_digit in Hsome.
  destruct (is_hex_space a).
  { apply IH; [lia |]. destruct (hex_digit a); exact Hsome. }
  destruct (hex_digit a) as [top|]; [| done].
  cbn [negb andb orb] in Hsome.
  destruct s as [|b s]; [done |].
  cbn [some_char] in Hsome. cbn [String.length] in Hlen.
  unfold invalid_hex_char at 1, is_hex_digit in Hsome.
  destruct (hex_digit b) as [bot|]; [| done].
  cbn [negb andb orb] in Hsome.
  rewrite IH; [done | lia | done].
Qed.

(** *** Splitting *)

Lemma prefix_cons (a b : ascii) (s1 s2 : string) :
  String.prefix (String a s1) (String b s2) =
  if ascii_dec a b then String.prefix s1 s2 else false.
Proof. reflexivity. Qed.

Lemma prefix_empty (s : string) : String.prefix EmptyString s = true.
Proof. by destruct s. Qed.

Lemma append_cons (a : ascii) (s t : string) :
  String a s +:+ t = String a (s +:+ t).
Proof. reflexivity. Qed.

Lemma append_empty (t : string) : EmptyString +:+ t = t.
Proof. reflexivity. Qed.

(** No occurrence of the delimiter starts inside a fragment and runs into
    the delimiter behind it: "5" is only the first of its characters. *)
Lemma delimiter_not_straddled (c : ascii) (g rest : string) :
  String.prefix HEX_DELIMITER (String c g) = false →
  String.prefix HEX_DELIMITER (String c g ++ HEX_DELIMITER ++ rest) = false.
Proof.
  unfold HEX_DELIMITER.
  do 7 (destruct g as [|? g];
        [intros _; rewrite ?append_cons, ?append_empty, ?prefix_cons;
         case_chars; done |]).
  rewrite !append_cons, !prefix_cons, !prefix_empty. done.
Qed.

(** A fragment in which the delimiter does not occur is cut off at the
    delimiter that follows it. *)
Lemma split_fragment (f rest : string) :
  occurs HEX_DELIMITER f = false →
  split (f ++ HEX_DELIMITER ++ rest) HEX_DELIMITER =
  f :: split rest HEX_DELIMITER.
Proof.
  unfold split. induction f as [|c f IH]; intros Hocc.
  - rewrite append_empty. unfold HEX_DELIMITER. rewrite !append_cons.
    cbn [split_from]. rewrite !prefix_cons, prefix_empty.
    case_chars; done.
  - cbn [occurs] in Hocc. apply orb_false_iff in Hocc as [Hpre Hocc].
    rewrite append_cons. cbn [split_from]. rewrite <- append_cons.
    rewrite (delimiter_not_straddled c f rest Hpre).
    by rewrite (IH Hocc).
Qed.

(** *** Normalisation *)

Lemma upper_app (s t : string) : upper (s +:+ t) = upper s +:+ upper t.
Proof. induction s as [|c s IH]; [done |]. cbn [upper]. by rewrite !append_cons, <- IH. Qed.

Lemma all_chars_app (P : ascii → bool) (s t : string) :
  all_chars P (s +:+ t) = all_chars P s && all_chars P t.
Proof.
  induction s as [|c s IH]; [done |].
  rewrite append_cons. cbn [all_chars]. by rewrite IH, andb_assoc.
Qed.

(** Without a whitespace character there is nothing to strip. *)
Lemma strip_no_space (s : string) :
  all_chars (λ c, negb (is_space c)) s = true → strip s = s.
Proof.
  intros Hall. unfold strip.
  assert (lstrip s = s) as ->.
  { destruct s as [|c s]; [done |]. cbn [all_chars lstrip] in *.
    apply andb_true_iff in Hall as [Hc _]. by destruct (is_space c). }
  induction s as [|c s IH]; [done |].
  cbn [all_chars] in Hall. apply andb_true_iff in Hall as [Hc Hall].
  cbn [rstrip]. rewrite (IH Hall).
  destruct s; [| done]. by destruct (is_space c).
Qed.

Lemma copies_all_chars (P : ascii → bool) (n : nat) (d : string) :
  all_chars P d = true → all_chars P (copies n d) = true.
Proof.
  intros Hd. induction n as [|n IH]; [done |].
  cbn [copies]. by rewrite all_chars_app, Hd, IH.
Qed.

Lemma upper_copies (n : nat) (d : string) :
  upper (copies n d) = copies n (upper d).
Proof. induction n as [|n IH]; [done |]. cbn [copies]. by rewrite upper_app, IH. Qed.

(** Delimiters alone leave only empty parts, and those are skipped. *)
Lemma copies_delimiter_segments (n : nat) :
  omap segment_of_part (split (copies n HEX_DELIMITER) HEX_DELIMITER) = [].
Proof.
  induction n as [|n IH]; [done |].
  cbn [copies].
  rewrite <- (append_empty (HEX_DELIMITER +:+ copies n HEX_DELIMITER)).
  rewrite split_fragment by done. cbn [omap list_omap]. exact IH.
Qed.

Lemma iter_segments_copies (n : nat) (d : string) :
  all_chars (λ c, negb (is_space c)) d = true →
  upper d = HEX_DELIMITER →
  iter_segments (copies n d) = [].
Proof.
  intros Hns Hup. unfold iter_segments. cbv zeta.
  rewrite strip_no_space by by apply copies_all_chars.
  rewrite upper_copies, Hup.
  destruct (String.eqb _ _); [done | apply copies_delimiter_segments].
Qed.

(** The parts of the input are handled one by one: whatever happens to
    a part, those behind the next delimiter are yielded as if alone. *)
Lemma segments_first_part (f rest : string) :
  occurs HEX_DELIMITER f = false →
  omap segment_of_part (split (f +:+ HEX_DELIMITER +:+ rest) HEX_DELIMITER) =
  option_list (segment_of_part f) ++
  omap segment_of_part (split rest HEX_DELIMITER).
Proof.
  intros Hocc. rewrite split_fragment by done. cbn [omap list_omap].
  by destruct (segment_of_part f).
Qed.

Lemma iter_segments_nonempty (raw_hex : string) :
  upper (strip raw_hex) ≠ EmptyString →
  iter_segments raw_hex =
  omap segment_of_part (split (upper (strip raw_hex)) HEX_DELIMITER).
Proof.
  intros Hne. unfold iter_segments. cbv zeta.
  by destruct (upper (strip raw_hex)).
Qed.

(** C9 as stated fails: the part "12G" contains the invalid digit "G"
    and is not dropped; its odd length costs it the "G" and the rest is
    yielded as the byte 0x12.  And it is the number of characters that
    counts, not of digits: "AB C" has three digits and an even length, is
    not truncated, and fails to convert. *)
Lemma invalid_trailing_digit_is_yielded :
  split (upper (strip "12G59D90010AB")) HEX_DELIMITER
    = ["12G"%string; "AB"%string] ∧
  some_char invalid_hex_char "12G" = true ∧
  iter_segments "12G59D90010AB" = [[Byte.x12]; [Byte.xab]] ∧
  truncated_part "AB C" = "AB C"%string ∧
  segment_of_part "AB C" = None.
Proof. vm_compute. repeat split; reflexivity. Qed.

(** C9 (amended): the empty string and strings made of delimiters only
    (in either case) yield no segment; a part of odd length loses exactly
    its last character before conversion, and what is left, when made of
    hex digits, converts to one byte per pair; a part that still holds an
    invalid character after that truncation is dropped; and the parts
    behind the next delimiter are yielded all the same. *)
Theorem iter_segments_parts :
  iter_segments "" = [] ∧
  (∀ n, iter_segments (copies n "59D90010") = [] ∧
        iter_segments (copies n "59d90010") = []) ∧
  (∀ p c, Nat.even (String.length p) = true →
     segment_of_part (p +:+ String c EmptyString) = fromhex p ∧
     (all_chars is_hex_digit p = true →
      ∃ bs, fromhex p = Some bs ∧
            length bs = Nat.div2 (String.length p))) ∧
  (∀ part, some_char invalid_hex_char (truncated_part part) = true →
     segment_of_part part = None) ∧
  (∀ raw_hex, upper (strip raw_hex) ≠ EmptyString →
     iter_segments raw_hex =
     omap segment_of_part (split (upper (strip raw_hex)) HEX_DELIMITER)) ∧
  (∀ f rest, occurs HEX_DELIMITER f = false →
     omap segment_of_part
       (split (f +:+ HEX_DELIMITER +:+ rest) HEX_DELIMITER) =
     option_list (segment_of_part f) ++
     omap segment_of_part (split rest HEX_DELIMITER)).
Proof.
  split; [done |]. split; [| split; [| split; [| split]]].
  - intros n. split; by apply iter_segments_copies.
  - intros p c Heven. split; [by apply segment_of_part_odd |].
    intros Hall. apply fromhex_pairs; [| done].
    apply Nat.even_spec in Heven as [k ->].
    by rewrite Nat.div2_double.
  - intros part Hinv. unfold segment_of_part. fold (truncated_part part).
    destruct (String.eqb part EmptyString); [done |].
    by eapply fromhex_invalid.
  - apply iter_segments_nonempty.
  - apply segments_first_part.
Qed.

Lemma iter_segments_parts_witness :
  segment_of_part "ABC" = fromhex "AB" ∧
  (∃ bs, fromhex "AB" = Some bs ∧ length bs = 1%nat) ∧
  segment_of_part "1G2" = None ∧
  iter_segments "1g259d90010abc" =
    option_list (segment_of_part "1G2") ++
    omap segment_of_part (split "ABC" HEX_DELIMITER).
Proof.
  destruct iter_segments_parts as (_ & _ & Hodd & Hinv & Hiter & Hrest).
  destruct (Hodd "AB"%string "C"%char) as [Htrunc Hbytes]; [reflexivity |].
  split; [exact Htrunc |].
  split; [apply Hbytes; reflexivity |].
  split; [apply Hinv; reflexivity |].
  rewrite Hiter by (vm_compute; discriminate).
  apply (Hrest "1G2"%string "ABC"%string). reflexivity.
Defined.

(** C10: a part made of one hex digit passes the emptiness test, loses
    its only character to the odd-length rule and is yielded as the empty
    bytes object, alone or between two delimiters. *)
Theorem single_digit_yields_empty_segment (c : ascii) :
  is_hex_digit c = true →
  iter_segments (String c EmptyString) = [[]] ∧
  iter_segments (HEX_DELIMITER +:+ String c HEX_DELIMITER) = [[]].
Proof.
  destruct c as [[] [] [] [] [] [] [] []]; intros H;
    try (vm_compute in H; discriminate H); vm_compute; done.
Qed.

Lemma single_digit_yields_empty_segment_witness :
  iter_segments "A" = [[]] ∧ iter_segments "59D90010A59D90010" = [[]].
Proof.
  apply (single_digit_yields_empty_segment "A"%char). reflexivity.
Defined.

(** * Further properties *)

(** ** The locator as a search *)

Section locator_search.
  Context (data : bytes).

(** Inside the scanned range the body accepts exactly the offsets that
    pass the three tests, and never leaves the loop. *)
Lemma find_body_inside (o : Z) :
  0 ≤ o < len data - min_len →
  find_body data o = Ok (if header_ok data o then Return o else Continue).
Proof.
  intros Ho. unfold min_len in Ho. unfold find_body, header_ok. cbv zeta.
  rewrite len_slice_inside by lia.
  replace (o + 8 - o <? 8) with false by lia.
  destruct (plausible_ts (from_bytes (slice data o (o + 8)))); cbn [negb andb];
    [| done].
  replace (len data <=? o + 9) with false by lia.
  destruct (index_ok data (o + 8)) as (p & Hp & Hpr); [lia |].
  destruct (index_ok data (o + 21)) as (s & Hs & Hsr); [lia |].
  replace (o + 8 + 1 + 4 + 4 + 2 + 2) with (o + 21) by lia.
  replace (o + 21 <? len data) with true by lia.
  rewrite Hp, Hs. cbn [mbind exc_bind fmap exc_fmap].
  destruct (3 <? p) eqn:Ep.
  { replace (p <=? 3) with false by lia. done. }
  replace (p <=? 3) with true by lia. cbn [andb].
  destruct (32 <? s) eqn:Es.
  - replace (s <=? 32) with false by lia. done.
  - replace (s <=? 32) with true by lia. done.
Qed.

(** Before a match, every body said [continue]. *)
Lemma find_loop_skipped (n : nat) (start o : Z) :
  find_loop data n start = Ok (Some o) →
  ∀ k, start ≤ k < o → find_body data k = Ok Continue.
Proof.
  revert start. induction n as [|n IH]; intros start H k Hk; [discriminate H |].
  cbn [find_loop] in H.
  destruct (find_body_cases data start) as [[H' _] | [H' | (H' & _)]];
    rewrite H' in H; cbn [mbind exc_bind mret exc_ret] in H.
  - discriminate H.
  - destruct (Z.eq_dec k start) as [-> | Hne]; [done |].
    apply (IH _ H). lia.
  - injection H as <-. lia.
Qed.

(** Without a match inside the range, no offset of it passes the tests. *)
Lemma find_loop_none (n : nat) (start : Z) :
  0 ≤ start → start + Z.of_nat n ≤ len data - min_len →
  find_loop data n start = Ok None →
  ∀ k, start ≤ k < start + Z.of_nat n → header_ok data k = false.
Proof.
  revert start. induction n as [|n IH]; intros start H0 Hn H k Hk; [lia |].
  cbn [find_loop] in H. rewrite find_body_inside in H by lia.
  destruct (header_ok data start) eqn:E; cbn [mbind exc_bind mret exc_ret] in H;
    [discriminate H |].
  destruct (Z.eq_dec k start) as [-> | Hne]; [done |].
  apply (IH (start + 1)); [lia | lia | done | lia].
Qed.


(** A match is the least offset of the range that passes the tests. *)
Lemma find_timestamp_offset_match (start o : Z) :
  0 ≤ start →
  find_timestamp_offset data start = Ok (Some o) →
  start ≤ o < len data - min_len ∧ header_ok data o = true ∧
  ∀ k, start ≤ k < o → header_ok data k = false.
Proof.
  intros Hstart H.
  pose proof (find_timestamp_offset_some _ _ _ H) as [Hr _].
  assert (start ≤ o < len data - min_len) as Hr' by lia.
  split; [done |]. unfold find_timestamp_offset in H. cbv zeta in H.
  pose proof (find_loop_skipped _ _ _ H) as Hskip.
  apply find_loop_some in H as [_ Hb].
  rewrite find_body_inside in Hb by lia.
  split.
  - by destruct (header_ok data o).
  - intros k Hk. specialize (Hskip k Hk).
    rewrite find_body_inside in Hskip by lia.
    by destruct (header_ok data k).
Qed.

Lemma find_timestamp_offset_none (start : Z) :
  0 ≤ start →
  find_timestamp_offset data start = Ok None ↔
  ∀ k, start ≤ k < len data - min_len → header_ok data k = false.
Proof.
  intros Hstart. split.
  - intros H k Hk. unfold find_timestamp_offset in H. cbv zeta in H.
    eapply (find_loop_none _ start); [done | | exact H |]; lia.
  - intros Hnone.
    destruct (find_timestamp_offset_total data start) as [[o|] H]; [| done].
    destruct (find_timestamp_offset_match _ _ Hstart H) as (Hr & Hok & _).
    rewrite Hnone in Hok by lia. discriminate Hok.
Qed.

End locator_search.

(** X1: the locator never raises, and for a start that is not negative it
    is a search for the least offset, from [start] on and with more than
    [min_len] bytes remaining, whose header passes the three tests: it
    returns that offset when there is one and no match when there is
    none. *)
Theorem find_timestamp_offset_least (data : bytes) (start : Z) :
  0 ≤ start →
  (∃ r, find_timestamp_offset data start = Ok r) ∧
  (∀ o, find_timestamp_offset data start = Ok (Some o) ↔
        start ≤ o < len data - min_len ∧ header_ok data o = true ∧
        ∀ k, start ≤ k < o → header_ok data k = false) ∧
  (find_timestamp_offset data start = Ok None ↔
   ∀ k, start ≤ k < len data - min_len → header_ok data k = false).
Proof.
  intros Hstart.
  split; [apply find_timestamp_offset_total |].
  split; [| by apply find_timestamp_offset_none].
  intros o. split; [by apply find_timestamp_offset_match |].
  intros (Hr & Hok & Hskip). apply find_timestamp_offset_first; [done | |].
  - intros k Hk. rewrite find_body_inside by lia. by rewrite Hskip.
  - rewrite find_body_inside by lia. by rewrite Hok.
Qed.

Lemma find_timestamp_offset_least_witness :
  find_timestamp_offset two_frames 1 = Ok (Some 39) ∧
  ∀ k, 1 ≤ k < 39 → header_ok two_frames k = false.
Proof.
  destruct (find_timestamp_offset_least two_frames 1) as (_ & Hsome & _);
    [lia |].
  assert (find_timestamp_offset two_frames 1 = Ok (Some 39)) as H1
    by (vm_compute; reflexivity).
  destruct (proj1 (Hsome 39) H1) as (_ & _ & Hskip).
  split; [exact H1 | exact Hskip].
Defined.

(** X2: a scan restarted anywhere between the start and the offset it
    found finds the same offset, whatever the start; and when a scan
    from a start that is not negative finds nothing, no later start
    finds anything. *)
Theorem find_timestamp_offset_restart (data : bytes) (start s : Z) :
  start ≤ s →
  (∀ o, find_timestamp_offset data start = Ok (Some o) → s ≤ o →
        find_timestamp_offset data s = Ok (Some o)) ∧
  (0 ≤ start → find_timestamp_offset data start = Ok None →
   find_timestamp_offset data s = Ok None).
Proof.
  intros Hs. split.
  - intros o H Ho.
    pose proof (find_timestamp_offset_some _ _ _ H) as [Hr _].
    unfold find_timestamp_offset in *. cbv zeta in *.
    pose proof (find_loop_skipped _ _ _ _ H) as Hskip.
    apply find_loop_some in H as [_ Hb].
    apply find_loop_first; [lia | | done].
    intros k Hk. apply Hskip. lia.
  - intros H0 H.
    apply find_timestamp_offset_none; [lia |]. intros k Hk.
    apply (proj1 (find_timestamp_offset_none data start H0) H). lia.
Qed.

Lemma find_timestamp_offset_restart_witness :
  find_timestamp_offset two_frames 20 = Ok (Some 39) ∧
  find_timestamp_offset two_frames 60 = Ok None.
Proof.
  split.
  - apply (proj1 (find_timestamp_offset_restart two_frames 1 20 ltac:(lia)));
      [vm_compute; reflexivity | lia].
  - apply (proj2 (find_timestamp_offset_restart two_frames 40 60 ltac:(lia)));
      [lia | vm_compute; reflexivity].
Defined.

(** ** The cursor of the decoder *)

Lemma read_entries_fold (data : bytes) (size : Z) (count : nat) (ptr : Z)
    (entries : gmap Z Z) :
  read_entries data size count ptr entries =
  (foldl (λ e '(k, v), <[k := v]> e) entries (wire_entries data size count ptr),
   ptr + Z.of_nat count * (2 + size)).
Proof.
  revert ptr entries. induction count as [|count IH]; intros ptr entries.
  - cbn. f_equal. lia.
  - cbn [read_entries wire_entries foldl]. rewrite IH. f_equal. lia.
Qed.

(** The three ways a group can end, with the cursor it leaves. *)
Lemma parse_group_step (data : bytes) (size : Z) (groups : gmap Z (gmap Z Z))
    (ptr : Z) :
  0 ≤ size →
  (len data - ptr < 2 ∧ parse_group data size (groups, ptr) = Halt (groups, ptr)) ∨
  (2 ≤ len data - ptr ∧
   parse_group data size (groups, ptr) = Halt (groups, len data)) ∨
  (2 ≤ len data - ptr ∧
   ∃ groups' ptr',
     parse_group data size (groups, ptr) = Go (groups', ptr') ∧
     ptr' ≤ len data ∧ (ptr' = ptr + 2 ∨ ptr + 4 ≤ ptr')).
Proof.
  intros Hsize. unfold parse_group. cbv zeta.
  destruct (len data - ptr <? 2) eqn:E1; [left; split; [lia | done] |].
  right.
  destruct (from_bytes (slice data ptr (ptr + 2)) =? 0) eqn:E2.
  { right. split; [lia |]. eexists _, _. split; [done |]. lia. }
  destruct (len data - (ptr + 2) <? _) eqn:E3; [left; split; [lia | done] |].
  right. split; [lia |].
  rewrite read_entries_fold. eexists _, _. split; [done |].
  pose proof (from_bytes_range (slice data ptr (ptr + 2))) as [Hc _].
  nia.
Qed.

Lemma parse_groups_cons (data : bytes) (size : Z) (sizes : list Z)
    (st : gmap Z (gmap Z Z) * Z) :
  parse_groups data (size :: sizes) st =
  match parse_group data size st with
  | Go st' => parse_groups data sizes st'
  | Halt st' => st'
  end.
Proof. reflexivity. Qed.

(** Group parsing only moves the cursor forward, and not past the end. *)
Lemma parse_groups_cursor (data : bytes) (sizes : list Z)
    (groups : gmap Z (gmap Z Z)) (ptr : Z) :
  Forall (λ size, 0 ≤ size) sizes → ptr ≤ len data →
  ptr ≤ (parse_groups data sizes (groups, ptr)).2 ≤ len data.
Proof.
  revert groups ptr. induction sizes as [|size sizes IH];
    intros groups ptr Hsizes Hptr; [cbn; lia |].
  apply Forall_cons in Hsizes as [Hsize Hsizes]. rewrite parse_groups_cons.
  destruct (parse_group_step data size groups ptr Hsize)
    as [[_ ->] | [[? ->] | (? & g' & p' & -> & ? & ?)]]; cbn [snd]; try lia.
  specialize (IH g' p' Hsizes ltac:(lia)). lia.
Qed.

(** With room for two counts, two counts at least are consumed. *)
Lemma parse_groups_two_counts (data : bytes) (s1 s2 : Z) (sizes : list Z)
    (groups : gmap Z (gmap Z Z)) (ptr : Z) :
  Forall (λ size, 0 ≤ size) (s1 :: s2 :: sizes) → 4 ≤ len data - ptr →
  ptr + 4 ≤ (parse_groups data (s1 :: s2 :: sizes) (groups, ptr)).2 ≤ len data.
Proof.
  intros Hsizes Hroom.
  apply Forall_cons in Hsizes as [Hs1 Hsizes].
  pose proof Hsizes as Hsizes'. apply Forall_cons in Hsizes' as [Hs2 Hrest].
  rewrite parse_groups_cons.
  destruct (parse_group_step data s1 groups ptr Hs1)
    as [[? _] | [[? ->] | (? & g1 & p1 & -> & ? & [-> | ?])]];
    cbn [snd]; try lia.
  - rewrite parse_groups_cons.
    destruct (parse_group_step data s2 g1 (ptr + 2) Hs2)
      as [[? _] | [[? ->] | (? & g2 & p2 & -> & ? & ?)]]; cbn [snd]; try lia.
    pose proof (parse_groups_cursor data sizes g2 p2 Hrest ltac:(lia)). lia.
  - pose proof (parse_groups_cursor data (s2 :: sizes) g1 p1 Hsizes ltac:(lia)).
    lia.
Qed.

(** A returned record has consumed at least 32 bytes of the buffer. *)
Lemma read_record_cursor (data : bytes) (o next : Z) (r : AvlRecord) :
  read_record data o = Ok (Some r, next) → o + 32 ≤ next ≤ len data.
Proof.
  intros Hr.
  destruct (structural_violation_dec data o) as [Hv | (Hlen & Hts & Htot)].
  { rewrite (read_record_rejects _ _ Hv) in Hr. discriminate Hr. }
  destruct (read_record_decodes data o Hlen Hts Htot)
    as (p & s & _ & _ & _ & _ & Hr').
  assert (next = (parse_groups data [1; 2; 4; 8] (∅, o + 28)).2) as ->
    by congruence.
  pose proof (parse_groups_two_counts data 1 2 [4; 8] ∅ (o + 28)) as Hc.
  assert (o + 28 + 4 ≤ (parse_groups data [1; 2; 4; 8] (∅, o + 28)).2 ≤ len data)
    as Hb.
  { apply Hc; [| lia]. repeat constructor; lia. }
  lia.
Qed.



(** ** The ranges of the decoded fields *)

Lemma len_slice_le (data : bytes) (lo hi : Z) :
  lo ≤ hi → len (slice data lo hi) ≤ hi - lo.
Proof.
  intros Hle. pose proof (len_nonneg data). rewrite len_slice.
  unfold slice_bound.
  destruct (lo <? 0) eqn:E1; destruct (hi <? 0) eqn:E2; lia.
Qed.

(** A slice of [n] bytes reads as a number below [256 ^ n]. *)
Lemma from_bytes_slice_range (data : bytes) (lo n : Z) :
  0 ≤ n → 0 ≤ from_bytes (slice data lo (lo + n)) < 256 ^ n.
Proof.
  intros Hn. pose proof (from_bytes_range (slice data lo (lo + n))) as [H0 Hlt].
  split; [done |]. eapply Z.lt_le_trans; [exact Hlt |].
  apply Z.pow_le_mono_r; [lia |].
  pose proof (len_slice_le data lo (lo + n)). lia.
Qed.

Lemma twos_complement_range (bits v : Z) :
  1 ≤ bits → 0 ≤ v < 2 ^ bits →
  - 2 ^ (bits - 1) ≤ twos_complement bits v < 2 ^ (bits - 1).
Proof.
  intros Hb Hv. unfold twos_complement.
  assert (2 ^ bits = 2 * 2 ^ (bits - 1)) as Hpow.
  { replace bits with (1 + (bits - 1)) at 1 by lia.
    rewrite Z.pow_add_r by lia. done. }
  destruct (2 ^ (bits - 1) <=? v) eqn:E; lia.
Qed.

Lemma wire_entries_bounded (data : bytes) (size : Z) (count : nat) (ptr : Z) :
  0 ≤ size →
  Forall (λ kv, 0 ≤ kv.1 < 256 ^ 2 ∧ 0 ≤ kv.2 < 256 ^ size)
         (wire_entries data size count ptr).
Proof.
  intros Hsize. revert ptr. induction count as [|count IH]; intros ptr;
    cbn [wire_entries]; constructor; [| apply IH].
  cbn [fst snd]. split; by apply from_bytes_slice_range.
Qed.

(** Inserting pairs one after the other keeps a property of the values. *)
Lemma foldl_insert_values (P : Z → Prop) (l : list (Z * Z)) (e : gmap Z Z) :
  (∀ k v, e !! k = Some v → P v) → Forall (λ kv, P kv.2) l →
  ∀ k v, foldl (λ e '(k, v), <[k := v]> e) e l !! k = Some v → P v.
Proof.
  revert e. induction l as [|[k0 v0] l IH]; intros e He Hl; [done |].
  apply Forall_cons in Hl as [H0 Hl]. cbn [foldl]. apply IH; [| done].
  intros k v. rewrite lookup_insert. case_decide; [| apply He].
  intros [= <-]. done.
Qed.

Lemma parse_group_bounded (data : bytes) (size : Z)
    (st st' : gmap Z (gmap Z Z) * Z) :
  0 ≤ size → groups_bounded st.1 →
  (parse_group data size st = Go st' ∨ parse_group data size st = Halt st') →
  groups_bounded st'.1.
Proof.
  destruct st as [groups ptr]. intros Hsize Hb. unfold parse_group. cbv zeta.
  cbn [fst] in Hb.
  destruct (len data - ptr <? 2); [intros [[=] | [= <-]]; done |].
  destruct (from_bytes (slice data ptr (ptr + 2)) =? 0);
    [intros [[= <-] | [=]]; done |].
  destruct (len data - (ptr + 2) <? _); [intros [[=] | [= <-]]; done |].
  rewrite read_entries_fold. intros [[= <-] | [=]]. cbn [fst].
  case_decide; [done |].
  intros size' g k v. rewrite lookup_insert. case_decide; [| apply Hb].
  intros [= <-]. subst size'.
  apply (foldl_insert_values (λ v, 0 ≤ v < 256 ^ size)); [done |].
  eapply Forall_impl; [by apply wire_entries_bounded |].
  intros kv [_ Hval]. exact Hval.
Qed.

Lemma parse_groups_bounded (data : bytes) (sizes : list Z)
    (st : gmap Z (gmap Z Z) * Z) :
  Forall (λ size, 0 ≤ size) sizes → groups_bounded st.1 →
  groups_bounded (parse_groups data sizes st).1.
Proof.
  revert st. induction sizes as [|size sizes IH]; intros st Hsizes Hb; [done |].
  apply Forall_cons in Hsizes as [Hsize Hsizes]. rewrite parse_groups_cons.
  destruct (parse_group data size st) as [st'|st'] eqn:E.
  - apply IH; [done |]. eapply parse_group_bounded; [done | done | by left].
  - eapply parse_group_bounded; [exact Hsize | done | by right].
Qed.

Lemma io_groups_bounded (data : bytes) (o : Z) :
  groups_bounded (io_groups data o).
Proof.
  unfold io_groups. apply parse_groups_bounded.
  - repeat constructor; lia.
  - intros size g k v H. cbn [fst] in H. by rewrite lookup_empty in H.
Qed.

Lemma axis_value_range (groups : gmap Z (gmap Z Z)) (io_id v : Z) :
  groups_bounded groups → axis_value groups io_id = Some v →
  - 2 ^ 15 ≤ v < 2 ^ 15.
Proof.
  intros Hb. unfold axis_value, group_get.
  destruct (groups !! 2) as [g2|] eqn:E2; cbn [mbind option_bind].
  - destruct (g2 !! io_id) as [v2|] eqn:Ev2.
    + intros [= <-]. pose proof (Hb 2 g2 io_id v2 E2 Ev2).
      apply (twos_complement_range 16); lia.
    + destruct (groups !! 1) as [g1|] eqn:E1; cbn [mbind option_bind fmap option_fmap option_map];
        [| done].
      destruct (g1 !! io_id) as [v1|] eqn:Ev1; [| done].
      intros [= <-]. pose proof (Hb 1 g1 io_id v1 E1 Ev1).
      pose proof (twos_complement_range 8 v1). lia.
  - destruct (groups !! 1) as [g1|] eqn:E1; cbn [mbind option_bind fmap option_fmap option_map];
      [| done].
    destruct (g1 !! io_id) as [v1|] eqn:Ev1; [| done].
    intros [= <-]. pose proof (Hb 1 g1 io_id v1 E1 Ev1).
    pose proof (twos_complement_range 8 v1). lia.
Qed.

(** The dictionary has the three axes as keys, and only those. *)
Lemma accel_of_keys (groups : gmap Z (gmap Z Z)) (axis : string) :
  is_Some (accel_of groups !! axis) ↔
  axis ∈ ["x"%string; "y"%string; "z"%string].
Proof.
  unfold accel_of, ACCEL_IO_IDS, accel_init. cbn [foldl].
  rewrite !lookup_insert_is_Some', lookup_empty, !elem_of_cons, elem_of_nil.
  split.
  - intros [-> | [-> | [-> | [-> | [-> | [-> | H]]]]]]; auto.
    by destruct H.
  - intros [-> | [-> | [-> | []]]]; auto.
Qed.

Lemma accel_of_value (groups : gmap Z (gmap Z Z)) (axis : string) (v : option Z) :
  accel_of groups !! axis = Some v →
  ∃ io_id, (io_id, axis) ∈ ACCEL_IO_IDS ∧ v = axis_value groups io_id.
Proof.
  intros H.
  assert (axis ∈ ["x"%string; "y"%string; "z"%string]) as Hin
    by (apply (accel_of_keys groups); eauto).
  rewrite !elem_of_cons, elem_of_nil in Hin.
  destruct Hin as [-> | [-> | [-> | []]]].
  - exists 0x0011. split; [apply axis_x_id |].
    rewrite (accel_of_lookup groups _ _ axis_x_id) in H. congruence.
  - exists 0x0012. split; [apply axis_y_id |].
    rewrite (accel_of_lookup groups _ _ axis_y_id) in H. congruence.
  - exists 0x0013. split; [apply axis_z_id |].
    rewrite (accel_of_lookup groups _ _ axis_z_id) in H. congruence.
Qed.

(** X4: every field of a record the decoder returns lies in the range of
    its wire width: priority and satellites in a byte, longitude and
    latitude a signed 32-bit number of 1e-7 degrees, altitude signed 16
    bits, angle and speed unsigned 16 bits; the accelerometer dictionary
    has exactly the keys x, y and z, and an axis that has a value has a
    signed 16-bit one. *)
Theorem read_record_field_ranges (data : bytes) (o next : Z) (r : AvlRecord) :
  read_record data o = Ok (Some r, next) → record_in_wire_ranges r.
Proof.
  intros Hr.
  destruct (structural_violation_dec data o) as [Hv | (Hlen & Hts & Htot)].
  { rewrite (read_record_rejects _ _ Hv) in Hr. discriminate Hr. }
  destruct (read_record_decodes data o Hlen Hts Htot)
    as (p & s & _ & Hp & _ & Hs & Hr').
  assert (r = decoded_record data o p s (accel_of (io_groups data o))) as ->
    by congruence.
  unfold record_in_wire_ranges, decoded_record.
  cbn [priority lon lat altitude angle satellites speed accel].
  pose proof (from_bytes_slice_range data (o + 9) 4 ltac:(lia)) as Hlon.
  pose proof (from_bytes_slice_range data (o + 13) 4 ltac:(lia)) as Hlat.
  pose proof (from_bytes_slice_range data (o + 17) 2 ltac:(lia)) as Halt.
  pose proof (from_bytes_slice_range data (o + 19) 2 ltac:(lia)) as Hang.
  pose proof (from_bytes_slice_range data (o + 22) 2 ltac:(lia)) as Hspd.
  replace (o + 9 + 4) with (o + 13) in Hlon by lia.
  replace (o + 13 + 4) with (o + 17) in Hlat by lia.
  replace (o + 17 + 2) with (o + 19) in Halt by lia.
  replace (o + 19 + 2) with (o + 21) in Hang by lia.
  replace (o + 22 + 2) with (o + 24) in Hspd by lia.
  split; [done |].
  split; [eexists; split; [done |]; apply (twos_complement_range 32); lia |].
  split; [eexists; split; [done |]; apply (twos_complement_range 32); lia |].
  split; [apply (twos_complement_range 16); lia |].
  split; [lia |]. split; [done |]. split; [lia |].
  split; [apply accel_of_keys |].
  intros axis v Hv. apply accel_of_value in Hv as (io_id & _ & Hv).
  eapply axis_value_range; [apply io_groups_bounded | done].
Qed.

Lemma read_record_field_ranges_witness : record_in_wire_ranges accel_record.
Proof.
  apply (read_record_field_ranges accel_data 0 56 accel_record).
  vm_compute. reflexivity.
Defined.

(** ** Duplicate ids *)

Lemma foldl_insert_last (l : list (Z * Z)) (e : gmap Z Z) (k : Z) :
  foldl (λ e '(k, v), <[k := v]> e) e l !! k =
  match last_value l k with
  | Some v => Some v
  | None => e !! k
  end.
Proof.
  revert e. induction l as [|[k0 v0] l IH]; intros e; [done |].
  cbn [foldl last_value]. rewrite IH.
  destruct (last_value l k); [done |].
  rewrite lookup_insert. destruct (decide (k = k0)) as [-> | Hne].
  - by rewrite decide_True.
  - by rewrite decide_False.
Qed.

(** The [i]-th pair stands [i] pairs behind the first. *)
Lemma wire_entries_lookup (data : bytes) (size : Z) (count i : nat) (ptr : Z) :
  (i < count)%nat →
  wire_entries data size count ptr !! i =
  Some (let at_i := ptr + Z.of_nat i * (2 + size) in
        (from_bytes (slice data at_i (at_i + 2)),
         from_bytes (slice data (at_i + 2) (at_i + 2 + size)))).
Proof.
  revert i ptr. induction count as [|count IH]; intros i ptr Hi; [lia |].
  destruct i as [|i]; cbn [wire_entries].
  - cbv zeta. by replace (ptr + Z.of_nat 0 * (2 + size)) with ptr by lia.
  - rewrite lookup_cons_ne_0 by done. cbn [Nat.pred]. rewrite IH by lia.
    cbv zeta.
    by replace (ptr + 2 + size + Z.of_nat i * (2 + size))
      with (ptr + Z.of_nat (S i) * (2 + size)) by lia.
Qed.

(** X5: the pairs of a group stand one behind the other from the cursor
    on, and when an IO id occurs more than once among them, the entry the
    decoder keeps for it is the value of its last occurrence; an id that
    does not occur has no entry; the loop leaves the cursor behind the
    [count] pairs. *)
Theorem read_entries_last_wins (data : bytes) (size : Z) (count : nat)
    (ptr k : Z) :
  (∀ i, (i < count)%nat →
     wire_entries data size count ptr !! i =
     Some (let at_i := ptr + Z.of_nat i * (2 + size) in
           (from_bytes (slice data at_i (at_i + 2)),
            from_bytes (slice data (at_i + 2) (at_i + 2 + size))))) ∧
  (read_entries data size count ptr ∅).1 !! k =
    last_value (wire_entries data size count ptr) k ∧
  (read_entries data size count ptr ∅).2 = ptr + Z.of_nat count * (2 + size).
Proof.
  split; [intros i; apply wire_entries_lookup |].
  rewrite read_entries_fold. cbn [fst snd]. split; [| done].
  rewrite foldl_insert_last, lookup_empty.
  by destruct (last_value _ k).
Qed.

Lemma read_entries_last_wins_witness :
  (read_entries (hex_bytes "001105001280001107") 1 3 0 ∅).1 !! 0x0011 = Some 7.
Proof.
  destruct (read_entries_last_wins (hex_bytes "001105001280001107") 1 3 0 0x0011)
    as (_ & -> & _).
  vm_compute. reflexivity.
Defined.

(** ** Big-endian encoding *)

Lemma byte_val_of_Z (z : Z) : 0 ≤ z < 256 → byte_val (byte_of_Z z) = z.
Proof.
  intros Hz. unfold byte_val, byte_of_Z.
  pose proof (byte_of_ascii_via_N (ascii_of_N (Z.to_N z))) as H.
  symmetry in H. apply Byte.to_of_N in H. rewrite H.
  rewrite N_ascii_embedding by lia. lia.
Qed.

Lemma length_to_bytes (n : nat) (v : Z) : length (to_bytes n v) = n.
Proof.
  revert v. induction n as [|n IH]; intros v; [done |].
  cbn [to_bytes]. rewrite length_app, IH. cbn. lia.
Qed.

Lemma len_to_bytes (n : nat) (v : Z) : len (to_bytes n v) = Z.of_nat n.
Proof. unfold len. by rewrite length_to_bytes. Qed.

(** Reading back what [to_bytes] wrote. *)
Lemma from_bytes_to_bytes (n : nat) (v : Z) :
  0 ≤ v < 256 ^ Z.of_nat n → from_bytes (to_bytes n v) = v.
Proof.
  revert v. induction n as [|n IH]; intros v Hv.
  - change (256 ^ Z.of_nat 0) with 1 in Hv. cbn. lia.
  - cbn [to_bytes]. rewrite from_bytes_snoc.
    replace (Z.of_nat (S n)) with (Z.of_nat n + 1) in Hv by lia.
    rewrite Z.pow_add_r, Z.pow_1_r in Hv by lia.
    rewrite IH.
    + rewrite byte_val_of_Z by (apply Z.mod_pos_bound; lia).
      pose proof (Z.div_mod v 256). lia.
    + split; [apply Z.div_pos; lia |].
      apply Z.div_lt_upper_bound; lia.
Qed.

Lemma len_app (a b : bytes) : len (a ++ b) = len a + len b.
Proof. unfold len. rewrite length_app. lia. Qed.

(** A chunk of the buffer is the slice between its two ends. *)
Lemma slice_chunk (data a chunk b : bytes) (lo hi : Z) :
  data = a ++ chunk ++ b → lo = len a → hi = lo + len chunk →
  slice data lo hi = chunk.
Proof.
  intros -> -> ->. unfold slice.
  pose proof (len_nonneg a). pose proof (len_nonneg chunk).
  pose proof (len_nonneg b).
  rewrite !len_app. unfold slice_bound.
  replace (len a <? 0) with false by lia.
  replace (len a + len chunk <? 0) with false by lia.
  rewrite !Z.min_l by lia.
  replace (Z.to_nat (len a + len chunk - len a)) with (length chunk)
    by (unfold len; lia).
  replace (Z.to_nat (len a)) with (length a) by (unfold len; lia).
  rewrite drop_app_length. by rewrite take_app_length.
Qed.

Lemma index_chunk (data a b : bytes) (x : byte) (i : Z) :
  data = a ++ [x] ++ b → i = len a → index data i = Ok (byte_val x).
Proof.
  intros -> ->. unfold index. cbv zeta.
  pose proof (len_nonneg a). pose proof (len_nonneg b).
  rewrite !len_app. change (len [x]) with 1.
  replace (len a <? 0) with false by lia.
  replace ((len a <? 0) || (len a + (1 + len b) <=? len a)) with false
    by (symmetry; apply orb_false_iff; split; lia).
  replace (Z.to_nat (len a)) with (length a) by (unfold len; lia).
  change (a ++ [x] ++ b) with (a ++ x :: b).
  by rewrite list_lookup_middle.
Qed.

(** ** Decoding an encoded frame *)

Ltac solve_len := rewrite ?len_app, ?len_to_bytes; lia.

(** The chunk behind the prefix [a] of the buffer. *)
Ltac chunk_after a :=
  eapply (slice_chunk _ a);
  [ subst; unfold encode_frame, encode_entry; cbn [flat_map];
    repeat rewrite <- app_assoc; reflexivity
  | solve_len | solve_len ].

Lemma twos_complement_mod (bits v : Z) :
  1 ≤ bits → - 2 ^ (bits - 1) ≤ v < 2 ^ (bits - 1) →
  twos_complement bits (v mod 2 ^ bits) = v.
Proof.
  intros Hb Hv. unfold twos_complement.
  assert (2 ^ bits = 2 * 2 ^ (bits - 1)) as Hpow.
  { replace bits with (1 + (bits - 1)) at 1 by lia.
    rewrite Z.pow_add_r by lia. done. }
  destruct (Z_lt_le_dec v 0) as [Hneg | Hpos].
  - replace (v mod 2 ^ bits) with (v + 2 ^ bits)
      by (apply Z.mod_unique with (-1); lia).
    replace (2 ^ (bits - 1) <=? v + 2 ^ bits) with true by lia. lia.
  - rewrite Z.mod_small by lia.
    replace (2 ^ (bits - 1) <=? v) with false by lia. done.
Qed.

Lemma mod_range (bits v : Z) : 0 ≤ bits → 0 ≤ v mod 2 ^ bits < 2 ^ bits.
Proof. intros. apply Z.mod_pos_bound. by apply Z.pow_pos_nonneg. Qed.

Lemma len_encode_entries (size : nat) (entries : list (Z * Z)) :
  len (flat_map (encode_entry size) entries) =
  Z.of_nat (length entries) * (2 + Z.of_nat size).
Proof.
  induction entries as [|kv entries IH]; [done |].
  cbn [flat_map length]. unfold encode_entry at 1.
  rewrite !len_app, !len_to_bytes, IH. lia.
Qed.

Lemma len_encode_group (size : nat) (entries : list (Z * Z)) :
  len (encode_group size entries) =
  2 + Z.of_nat (length entries) * (2 + Z.of_nat size).
Proof.
  unfold encode_group. rewrite len_app, len_to_bytes, len_encode_entries. lia.
Qed.

(** The pairs read from encoded pairs are the pairs that were encoded. *)
Lemma wire_entries_encoded (size : nat) (entries : list (Z * Z))
    (data a b : bytes) :
  data = a ++ flat_map (encode_entry size) entries ++ b →
  Forall (λ kv, 0 ≤ kv.1 < 256 ^ 2 ∧ 0 ≤ kv.2 < 256 ^ Z.of_nat size) entries →
  wire_entries data (Z.of_nat size) (length entries) (len a) = entries.
Proof.
  revert a. induction entries as [|[k v] entries IH]; intros a Hdata Hwf; [done |].
  apply Forall_cons in Hwf as [[Hk Hv] Hwf]. cbn [fst snd] in Hk, Hv.
  cbn [length wire_entries].
  assert (slice data (len a) (len a + 2) = to_bytes 2 k) as ->
    by chunk_after a.
  assert (slice data (len a + 2) (len a + 2 + Z.of_nat size) = to_bytes size v)
    as -> by chunk_after (a ++ to_bytes 2 k).
  rewrite !from_bytes_to_bytes by done.
  f_equal.
  replace (len a + 2 + Z.of_nat size)
    with (len (a ++ to_bytes 2 k ++ to_bytes size v)) by solve_len.
  apply IH; [| done].
  subst. unfold encode_entry. cbn [flat_map fst snd].
  by repeat rewrite <- app_assoc.
Qed.

Lemma entries_map_nonempty (kv : Z * Z) (entries : list (Z * Z)) :
  entries_map (kv :: entries) ≠ ∅.
Proof.
  unfold entries_map.
  destruct (exists_last (l := kv :: entries)) as (l & [k v] & ->); [done |].
  rewrite foldl_snoc. apply insert_non_empty.
Qed.

(** A group parsed from its encoding: all its pairs are read, and the
    cursor ends behind it. *)
Lemma parse_group_encoded (size : nat) (entries : list (Z * Z))
    (data a b : bytes) (groups : gmap Z (gmap Z Z)) :
  data = a ++ encode_group size entries ++ b →
  entries_wf size entries →
  parse_group data (Z.of_nat size) (groups, len a) =
  Go (put_group (Z.of_nat size) (entries_map entries) groups,
      len a + len (encode_group size entries)).
Proof.
  intros Hdata [Hcount Hwf]. unfold parse_group. cbv zeta.
  pose proof (len_nonneg b).
  assert (len data = len a + len (encode_group size entries) + len b) as Hlen
    by (rewrite Hdata; solve_len).
  rewrite len_encode_group in *.
  replace (len data - len a <? 2) with false by lia.
  assert (slice data (len a) (len a + 2)
          = to_bytes 2 (Z.of_nat (length entries))) as ->.
  { eapply (slice_chunk _ a); [| solve_len | solve_len].
    subst. unfold encode_group. by repeat rewrite <- app_assoc. }
  rewrite from_bytes_to_bytes by (split; [lia | done]).
  destruct entries as [|kv entries].
  { cbn [length]. change (Z.of_nat 0 =? 0) with true. cbv iota.
    unfold put_group, entries_map. cbn [foldl]. rewrite decide_True by done.
    do 2 f_equal; lia. }
  replace (Z.of_nat (length (kv :: entries)) =? 0) with false
    by (symmetry; apply Z.eqb_neq; cbn [length]; lia).
  replace (len data - (len a + 2) <?
           Z.of_nat (length (kv :: entries)) * (2 + Z.of_nat size))
    with false by lia.
  rewrite read_entries_fold, Nat2Z.id.
  replace (len a + 2) with (len (a ++ to_bytes 2 (Z.of_nat (length (kv :: entries)))))
    by solve_len.
  rewrite (wire_entries_encoded size (kv :: entries) data _ b); [| | done].
  - unfold put_group. fold (entries_map (kv :: entries)).
    rewrite decide_False by apply entries_map_nonempty.
    do 2 f_equal; solve_len.
  - subst. unfold encode_group. by repeat rewrite <- app_assoc.
Qed.

Lemma put_group_lookup_ne (size size' : Z) (m : gmap Z Z)
    (groups : gmap Z (gmap Z Z)) :
  size ≠ size' → put_group size m groups !! size' = groups !! size'.
Proof.
  intros Hne. unfold put_group. case_decide; [done |].
  by rewrite lookup_insert_ne.
Qed.

Lemma group_get_put_ne (size size' k : Z) (m : gmap Z Z)
    (groups : gmap Z (gmap Z Z)) :
  size ≠ size' →
  group_get (put_group size m groups) size' k = group_get groups size' k.
Proof. intros Hne. unfold group_get. by rewrite put_group_lookup_ne. Qed.

Lemma group_get_put_eq (size k : Z) (m : gmap Z Z)
    (groups : gmap Z (gmap Z Z)) :
  groups !! size = None →
  group_get (put_group size m groups) size k = m !! k.
Proof.
  intros Hnone. unfold group_get, put_group. case_decide as Hm.
  - rewrite Hnone, Hm. cbn. by rewrite lookup_empty.
  - by rewrite lookup_insert_eq.
Qed.

Lemma entries_map_lookup (entries : list (Z * Z)) (k : Z) :
  entries_map entries !! k = last_value entries k.
Proof.
  unfold entries_map. rewrite foldl_insert_last, lookup_empty.
  by destruct (last_value entries k).
Qed.

Lemma to_bytes_one (v : Z) : to_bytes 1 v = [byte_of_Z (v mod 256)].
Proof. reflexivity. Qed.

(** The byte behind the prefix [a] of the buffer. *)
Ltac byte_after a :=
  eapply (index_chunk _ a);
  [ subst; unfold encode_frame; rewrite !to_bytes_one;
    repeat rewrite <- app_assoc; reflexivity
  | solve_len ].

Section frame_roundtrip.
  Context (f : Frame) (pre suf data : bytes).
  Hypothesis Hdata : data = pre ++ encode_frame f ++ suf.
  Hypothesis Hwf : frame_wf f.

Lemma len_encode_frame :
  len (encode_frame f) =
  28 + len (encode_group 1 (f_io1 f)) + len (encode_group 2 (f_io2 f)) +
  len (encode_group 4 (f_io4 f)) + len (encode_group 8 (f_io8 f)).
Proof. unfold encode_frame. solve_len. Qed.

Lemma len_encode_frame_min : 36 ≤ len (encode_frame f).
Proof. rewrite len_encode_frame, !len_encode_group. nia. Qed.

Lemma len_frame_data :
  len data = len pre + len (encode_frame f) + len suf.
Proof. rewrite Hdata. solve_len. Qed.

(** The fixed-width fields, where the decoder reads them. *)
Lemma frame_timestamp_at :
  from_bytes (slice data (len pre) (len pre + 8)) = f_timestamp f.
Proof.
  destruct Hwf as (Hts & _).
  assert (slice data (len pre) (len pre + 8) = to_bytes 8 (f_timestamp f))
    as -> by chunk_after pre.
  apply from_bytes_to_bytes. unfold MIN_TS_MS, MAX_TS_MS in Hts.
  change (epoch_days 2015 * 86400 * 1000) with 1420070400000 in Hts.
  change (epoch_days 2035 * 86400 * 1000) with 2051222400000 in Hts.
  change (256 ^ Z.of_nat 8) with 18446744073709551616. lia.
Qed.

Lemma frame_priority_at :
  index data (len pre + 8) = Ok (f_priority f).
Proof.
  destruct Hwf as (_ & Hp & _).
  rewrite <- (byte_val_of_Z (f_priority f)) at 1 by lia.
  rewrite <- (Z.mod_small (f_priority f) 256) at 1 by lia.
  byte_after (pre ++ to_bytes 8 (f_timestamp f)).
Qed.

Lemma frame_lon_at :
  twos_complement 32 (from_bytes (slice data (len pre + 9) (len pre + 13)))
  = f_lon f.
Proof.
  destruct Hwf as (_ & _ & Hlon & _).
  assert (slice data (len pre + 9) (len pre + 13)
          = to_bytes 4 (f_lon f mod 2 ^ 32)) as ->
    by chunk_after (pre ++ to_bytes 8 (f_timestamp f) ++
                    to_bytes 1 (f_priority f)).
  rewrite from_bytes_to_bytes by (apply (mod_range 32); lia).
  apply twos_complement_mod; lia.
Qed.

Lemma frame_lat_at :
  twos_complement 32 (from_bytes (slice data (len pre + 13) (len pre + 17)))
  = f_lat f.
Proof.
  destruct Hwf as (_ & _ & _ & Hlat & _).
  assert (slice data (len pre + 13) (len pre + 17)
          = to_bytes 4 (f_lat f mod 2 ^ 32)) as ->
    by chunk_after (pre ++ to_bytes 8 (f_timestamp f) ++
                    to_bytes 1 (f_priority f) ++
                    to_bytes 4 (f_lon f mod 2 ^ 32)).
  rewrite from_bytes_to_bytes by (apply (mod_range 32); lia).
  apply twos_complement_mod; lia.
Qed.

Lemma frame_altitude_at :
  twos_complement 16 (from_bytes (slice data (len pre + 17) (len pre + 19)))
  = f_altitude f.
Proof.
  destruct Hwf as (_ & _ & _ & _ & Halt & _).
  assert (slice data (len pre + 17) (len pre + 19)
          = to_bytes 2 (f_altitude f mod 2 ^ 16)) as ->
    by chunk_after (pre ++ to_bytes 8 (f_timestamp f) ++
                    to_bytes 1 (f_priority f) ++
                    to_bytes 4 (f_lon f mod 2 ^ 32) ++
                    to_bytes 4 (f_lat f mod 2 ^ 32)).
  rewrite from_bytes_to_bytes by (apply (mod_range 16); lia).
  apply twos_complement_mod; lia.
Qed.

Lemma frame_angle_at :
  from_bytes (slice data (len pre + 19) (len pre + 21)) = f_angle f.
Proof.
  destruct Hwf as (_ & _ & _ & _ & _ & Hang & _).
  assert (slice data (len pre + 19) (len pre + 21) = to_bytes 2 (f_angle f))
    as ->
    by chunk_after (pre ++ to_bytes 8 (f_timestamp f) ++
                    to_bytes 1 (f_priority f) ++
                    to_bytes 4 (f_lon f mod 2 ^ 32) ++
                    to_bytes 4 (f_lat f mod 2 ^ 32) ++
                    to_bytes 2 (f_altitude f mod 2 ^ 16)).
  by apply from_bytes_to_bytes.
Qed.

Lemma frame_satellites_at :
  index data (len pre + 21) = Ok (f_satellites f).
Proof.
  destruct Hwf as (_ & _ & _ & _ & _ & _ & Hs & _).
  rewrite <- (byte_val_of_Z (f_satellites f)) at 1 by lia.
  rewrite <- (Z.mod_small (f_satellites f) 256) at 1 by lia.
  byte_after (pre ++ to_bytes 8 (f_timestamp f) ++
              to_bytes 1 (f_priority f) ++
              to_bytes 4 (f_lon f mod 2 ^ 32) ++
              to_bytes 4 (f_lat f mod 2 ^ 32) ++
              to_bytes 2 (f_altitude f mod 2 ^ 16) ++
              to_bytes 2 (f_angle f)).
Qed.

Lemma frame_speed_at :
  from_bytes (slice data (len pre + 22) (len pre + 24)) = f_speed f.
Proof.
  destruct Hwf as (_ & _ & _ & _ & _ & _ & _ & Hspd & _).
  assert (slice data (len pre + 22) (len pre + 24) = to_bytes 2 (f_speed f))
    as ->
    by chunk_after (pre ++ to_bytes 8 (f_timestamp f) ++
                    to_bytes 1 (f_priority f) ++
                    to_bytes 4 (f_lon f mod 2 ^ 32) ++
                    to_bytes 4 (f_lat f mod 2 ^ 32) ++
                    to_bytes 2 (f_altitude f mod 2 ^ 16) ++
                    to_bytes 2 (f_angle f) ++
                    to_bytes 1 (f_satellites f)).
  by apply from_bytes_to_bytes.
Qed.

Lemma frame_total_at :
  from_bytes (slice data (len pre + 26) (len pre + 28)) = f_total f.
Proof.
  destruct Hwf as (_ & _ & _ & _ & _ & _ & _ & _ & _ & Htot & _).
  assert (slice data (len pre + 26) (len pre + 28) = to_bytes 2 (f_total f))
    as ->
    by chunk_after (pre ++ to_bytes 8 (f_timestamp f) ++
                    to_bytes 1 (f_priority f) ++
                    to_bytes 4 (f_lon f mod 2 ^ 32) ++
                    to_bytes 4 (f_lat f mod 2 ^ 32) ++
                    to_bytes 2 (f_altitude f mod 2 ^ 16) ++
                    to_bytes 2 (f_angle f) ++
                    to_bytes 1 (f_satellites f) ++
                    to_bytes 2 (f_speed f) ++
                    to_bytes 2 (f_event f)).
  apply from_bytes_to_bytes. change (256 ^ Z.of_nat 2) with 65536. lia.
Qed.

(** The four groups, parsed one behind the other. *)
Lemma frame_groups_parsed :
  parse_groups data [1; 2; 4; 8] (∅, len pre + 28) =
  (put_group 8 (entries_map (f_io8 f))
     (put_group 4 (entries_map (f_io4 f))
        (put_group 2 (entries_map (f_io2 f))
           (put_group 1 (entries_map (f_io1 f)) ∅))),
   len pre + len (encode_frame f)).
Proof.
  destruct Hwf as (_ & _ & _ & _ & _ & _ & _ & _ & _ & _ & H1 & H2 & H4 & H8).
  set (gps := pre ++ to_bytes 8 (f_timestamp f) ++
              to_bytes 1 (f_priority f) ++
              to_bytes 4 (f_lon f mod 2 ^ 32) ++
              to_bytes 4 (f_lat f mod 2 ^ 32) ++
              to_bytes 2 (f_altitude f mod 2 ^ 16) ++
              to_bytes 2 (f_angle f) ++
              to_bytes 1 (f_satellites f) ++
              to_bytes 2 (f_speed f) ++
              to_bytes 2 (f_event f) ++
              to_bytes 2 (f_total f)).
  replace (len pre + 28) with (len gps) by (subst gps; solve_len).
  rewrite parse_groups_cons.
  rewrite (parse_group_encoded 1 (f_io1 f) data gps
             (encode_group 2 (f_io2 f) ++ encode_group 4 (f_io4 f) ++
              encode_group 8 (f_io8 f) ++ suf) ∅); [| | done].
  2: { subst gps. rewrite Hdata. unfold encode_frame.
       by repeat rewrite <- app_assoc. }
  rewrite <- len_app, parse_groups_cons.
  rewrite (parse_group_encoded 2 (f_io2 f) data (gps ++ encode_group 1 (f_io1 f))
             (encode_group 4 (f_io4 f) ++ encode_group 8 (f_io8 f) ++ suf));
    [| | done].
  2: { subst gps. rewrite Hdata. unfold encode_frame.
       by repeat rewrite <- app_assoc. }
  rewrite <- len_app, parse_groups_cons.
  rewrite (parse_group_encoded 4 (f_io4 f) data
             ((gps ++ encode_group 1 (f_io1 f)) ++ encode_group 2 (f_io2 f))
             (encode_group 8 (f_io8 f) ++ suf)); [| | done].
  2: { subst gps. rewrite Hdata. unfold encode_frame.
       by repeat rewrite <- app_assoc. }
  rewrite <- len_app, parse_groups_cons.
  rewrite (parse_group_encoded 8 (f_io8 f) data
             (((gps ++ encode_group 1 (f_io1 f)) ++ encode_group 2 (f_io2 f))
              ++ encode_group 4 (f_io4 f)) suf); [| | done].
  2: { subst gps. rewrite Hdata. unfold encode_frame.
       by repeat rewrite <- app_assoc. }
  cbn [parse_groups]. f_equal.
  subst gps. unfold encode_frame. solve_len.
Qed.

(** The axes of the parsed groups are those of the frame. *)
Lemma frame_axis_value (io_id : Z) :
  axis_value (io_groups data (len pre)) io_id = frame_axis f io_id.
Proof.
  unfold io_groups. rewrite frame_groups_parsed. cbn [fst].
  unfold axis_value, frame_axis.
  rewrite !(group_get_put_ne 8) by done.
  rewrite !(group_get_put_ne 4) by done.
  rewrite (group_get_put_eq 2)
    by (by rewrite put_group_lookup_ne, lookup_empty).
  rewrite (group_get_put_ne 2) by done.
  rewrite (group_get_put_eq 1) by apply lookup_empty.
  by rewrite !entries_map_lookup.
Qed.

Lemma read_record_encoded :
  read_record data (len pre) =
  Ok (Some (frame_record f), len pre + len (encode_frame f)).
Proof.
  pose proof len_encode_frame_min. pose proof len_frame_data.
  pose proof (len_nonneg suf).
  destruct (read_record_decodes data (len pre)) as (p & s & Hp & _ & Hs & _ & ->).
  - lia.
  - rewrite frame_timestamp_at. apply plausible_ts_spec. apply Hwf.
  - rewrite frame_total_at. apply Hwf.
  - rewrite frame_priority_at in Hp. rewrite frame_satellites_at in Hs.
    injection Hp as <-. injection Hs as <-.
    rewrite frame_groups_parsed. cbn [snd]. do 2 f_equal.
    unfold decoded_record, frame_record.
    rewrite frame_timestamp_at, frame_lon_at, frame_lat_at, frame_altitude_at,
      frame_angle_at, frame_speed_at.
    f_equal. unfold accel_of, ACCEL_IO_IDS. cbn [foldl].
    by rewrite !frame_axis_value.
Qed.

(** The locator accepts the frame where it starts. *)
Lemma header_ok_encoded :
  frame_locatable f → header_ok data (len pre) = true.
Proof.
  intros [Hp Hs]. unfold header_ok.
  rewrite frame_timestamp_at, frame_priority_at, frame_satellites_at.
  apply andb_true_iff. split; [apply plausible_ts_spec; apply Hwf |].
  apply andb_true_iff. split; lia.
Qed.

End frame_roundtrip.

(** X6: decoding inverts the wire layout.  For every frame whose fields
    fit their widths, with a timestamp in the window and a total of at
    most 256, the decoder run where the encoded frame starts, whatever
    stands before and behind it in the buffer, returns the frame's
    record (signed fields restored, each axis from the last 2-byte element
    with its id, else the last 1-byte one) and the offset where the frame
    ends. *)
Theorem read_record_encode_frame (f : Frame) (pre suf : bytes) :
  frame_wf f →
  read_record (pre ++ encode_frame f ++ suf) (len pre) =
  Ok (Some (frame_record f), len pre + len (encode_frame f)).
Proof. intros Hwf. by apply (read_record_encoded f pre suf). Qed.

Lemma sample_frame_wf : frame_wf sample_frame.
Proof.
  unfold frame_wf, entries_wf, sample_frame. cbn.
  repeat split; try lia; try (intros H; discriminate H);
    repeat constructor; cbn; lia.
Qed.

Lemma read_record_encode_frame_witness :
  read_record ([Byte.x59; Byte.xd9] ++ encode_frame sample_frame ++ [Byte.xff])
              (len [Byte.x59; Byte.xd9]) =
  Ok (Some (frame_record sample_frame),
      len [Byte.x59; Byte.xd9] + len (encode_frame sample_frame)).
Proof. apply read_record_encode_frame. apply sample_frame_wf. Defined.

(** ** Streams of encoded frames *)

(** A segment that continues with encoded frames is scanned frame by
    frame. *)
Lemma scan_encoded_frames (fs : list Frame) (pre : bytes) (fuel : nat)
    (records : list AvlRecord) :
  Forall frame_wf fs → Forall frame_locatable fs → (length fs < fuel)%nat →
  scan_segment fuel (pre ++ encode_frames fs) (len pre) records =
  Some (Ok (records ++ (frame_record <$> fs))).
Proof.
  revert pre fuel records.
  induction fs as [|f fs IH]; intros pre fuel records Hwf Hloc Hfuel;
    (destruct fuel as [|fuel]; [cbn in Hfuel; lia |]).
  - cbn [scan_segment]. unfold scan_step, encode_frames. cbn [fmap list_fmap concat].
    rewrite app_nil_r. replace (len pre <? len pre) with false by lia.
    cbn [negb mret exc_ret]. by rewrite app_nil_r.
  - apply Forall_cons in Hwf as [Hf Hwf]. apply Forall_cons in Hloc as [Hl Hloc].
    cbn [length] in Hfuel.
    set (data := pre ++ encode_frames (f :: fs)).
    assert (data = pre ++ encode_frame f ++ encode_frames fs) as Hdata by done.
    pose proof (len_encode_frame_min f).
    pose proof (len_frame_data f pre (encode_frames fs) data Hdata) as Hlen.
    pose proof (len_nonneg (encode_frames fs)). pose proof (len_nonneg pre).
    assert (find_timestamp_offset data (len pre) = Ok (Some (len pre))) as Hfind.
    { apply find_timestamp_offset_first.
      - unfold min_len. lia.
      - intros k Hk. lia.
      - rewrite find_body_inside by (unfold min_len; lia).
        by rewrite (header_ok_encoded f pre (encode_frames fs) data Hdata Hf Hl). }
    cbn [scan_segment]. rewrite (scan_step_located _ _ _ Hfind).
    rewrite (read_record_encoded f pre (encode_frames fs) data Hdata Hf).
    cbn [mbind exc_bind mret exc_ret].
    rewrite Z.max_l by lia. rewrite <- len_app.
    assert (data = (pre ++ encode_frame f) ++ encode_frames fs) as ->
      by (rewrite Hdata; by rewrite app_assoc).
    rewrite IH by (done || lia).
    cbn [fmap list_fmap]. by rewrite <- app_assoc.
Qed.

(** ** Hex text and back *)

(** The two digits of a byte, in either case, read back as the byte. *)
Lemma fromhex_hex_byte (b : byte) (rest : string) :
  fromhex (String (hex_char (byte_val b / 16))
             (String (hex_char (byte_val b mod 16)) rest)) =
    cons b <$> fromhex rest ∧
  fromhex (String (upper_char (hex_char (byte_val b / 16)))
             (String (upper_char (hex_char (byte_val b mod 16))) rest)) =
    cons b <$> fromhex rest.
Proof. destruct b; split; reflexivity. Qed.

Lemma hex_char_no_space (b : byte) :
  is_space (hex_char (byte_val b / 16)) = false ∧
  is_space (hex_char (byte_val b mod 16)) = false ∧
  is_hex_digit (upper_char (hex_char (byte_val b / 16))) = true ∧
  is_hex_digit (upper_char (hex_char (byte_val b mod 16))) = true.
Proof. destruct b; repeat split; reflexivity. Qed.

Lemma fromhex_hex (bs : bytes) :
  fromhex (hex bs) = Some bs ∧ fromhex (upper (hex bs)) = Some bs.
Proof.
  induction bs as [|b bs [IH1 IH2]]; [done |].
  cbn [hex upper].
  destruct (fromhex_hex_byte b (hex bs)) as [-> _].
  destruct (fromhex_hex_byte b (upper (hex bs))) as [_ ->].
  by rewrite IH1, IH2.
Qed.

Lemma hex_no_space (bs : bytes) :
  all_chars (λ c, negb (is_space c)) (hex bs) = true.
Proof.
  induction bs as [|b bs IH]; [done |].
  cbn [hex all_chars]. destruct (hex_char_no_space b) as (-> & -> & _).
  by rewrite IH.
Qed.

Lemma length_upper (s : string) : String.length (upper s) = String.length s.
Proof.
  induction s as [|c s IH]; [done |].
  change (S (String.length (upper s)) = S (String.length s)). by rewrite IH.
Qed.

Lemma length_hex (bs : bytes) : String.length (hex bs) = (2 * length bs)%nat.
Proof.
  induction bs as [|b bs IH]; [done |].
  change (S (S (String.length (hex bs))) = (2 * S (length bs))%nat).
  rewrite IH. lia.
Qed.

(** Without an occurrence of the delimiter there is one part. *)
Lemma split_no_occurrence (s : string) :
  occurs HEX_DELIMITER s = false → split s HEX_DELIMITER = [s].
Proof.
  unfold split. induction s as [|c s IH]; intros Hocc; [done |].
  cbn [occurs] in Hocc. apply orb_false_iff in Hocc as [Hpre Hocc].
  cbn [split_from]. rewrite Hpre, (IH Hocc). done.
Qed.

Lemma iter_segments_of_hex (bs : bytes) :
  bs ≠ [] → occurs HEX_DELIMITER (upper (hex bs)) = false →
  iter_segments (hex bs) = [bs].
Proof.
  intros Hne Hocc. unfold iter_segments. cbv zeta.
  rewrite strip_no_space by apply hex_no_space.
  destruct bs as [|b bs]; [done |].
  replace (String.eqb (upper (hex (b :: bs))) EmptyString) with false by done.
  rewrite split_no_occurrence by done. cbn [omap list_omap].
  unfold segment_of_part.
  replace (String.eqb (upper (hex (b :: bs))) EmptyString) with false by done.
  rewrite length_upper, length_hex.
  replace (Nat.odd (2 * length (b :: bs))) with false
    by (symmetry; rewrite <- Nat.negb_even, Nat.even_mul; done).
  by rewrite (proj2 (fromhex_hex (b :: bs))).
Qed.

(** X7: hex text and back.  [bytes.fromhex] inverts [hex], in either
    case of the digits; and the segmenter, given the hex text of a
    non-empty bytes object in which the delimiter does not occur, yields
    exactly that bytes object as its one segment. *)
Theorem iter_segments_hex (bs : bytes) :
  (fromhex (hex bs) = Some bs ∧ fromhex (upper (hex bs)) = Some bs) ∧
  (bs ≠ [] → occurs HEX_DELIMITER (upper (hex bs)) = false →
   iter_segments (hex bs) = [bs]).
Proof. split; [apply fromhex_hex | apply iter_segments_of_hex]. Qed.

Lemma iter_segments_hex_witness :
  iter_segments (hex (encode_frame sample_frame)) = [encode_frame sample_frame].
Proof.
  apply (proj2 (iter_segments_hex (encode_frame sample_frame))).
  - vm_compute. discriminate.
  - vm_compute. reflexivity.
Defined.

(** X8: a stream of frames survives the whole way.  For frames whose
    fields fit their widths, with timestamps in the window, totals of at
    most 256, priority at most 3 and at most 32 satellites, encoded one
    behind the other and sent as hex text in which the delimiter does not
    occur, [parse_avl_data] returns exactly the records of the frames, in
    order, once the fuel exceeds the number of frames. *)
Theorem parse_avl_data_encoded_frames (fs : list Frame) (fuel : nat) :
  Forall frame_wf fs → Forall frame_locatable fs →
  occurs HEX_DELIMITER (upper (hex (encode_frames fs))) = false →
  (length fs < fuel)%nat →
  parse_avl_data fuel (hex (encode_frames fs)) =
  Some (Ok (frame_record <$> fs)).
Proof.
  intros Hwf Hloc Hocc Hfuel. unfold parse_avl_data.
  destruct fs as [|f fs]; [done |].
  assert (encode_frames (f :: fs) ≠ []) as Hne.
  { pose proof (len_encode_frame_min f) as Hmin.
    unfold encode_frames. cbn [fmap list_fmap concat].
    intros Hnil. apply (f_equal len) in Hnil. rewrite len_app in Hnil.
    pose proof (len_nonneg (concat (encode_frame <$> fs))).
    change (len []) with 0 in Hnil. lia. }
  rewrite (iter_segments_of_hex _ Hne Hocc). cbn [scan_segments].
  pose proof (scan_encoded_frames (f :: fs) [] fuel [] Hwf Hloc Hfuel) as Hscan.
  cbn [app] in Hscan. change (len []) with 0 in Hscan. by rewrite Hscan.
Qed.

Lemma parse_avl_data_encoded_frames_witness :
  parse_avl_data 3 (hex (encode_frames [sample_frame; sample_frame])) =
  Some (Ok (frame_record <$> [sample_frame; sample_frame])).
Proof.
  apply parse_avl_data_encoded_frames.
  - repeat constructor; apply sample_frame_wf.
  - repeat constructor; cbn; lia.
  - vm_compute. reflexivity.
  - cbn. lia.
Defined.

(** ** Segments are decoded one by one *)

(** The records of a list of segments do not depend on what was decoded
    before: they are appended to it. *)
Lemma scan_segment_acc (fuel : nat) (segment : bytes) (pos : Z)
    (records out : list AvlRecord) :
  scan_segment fuel segment pos records = Some (Ok out) →
  ∃ new, out = records ++ new ∧
         ∀ records', scan_segment fuel segment pos records'
                     = Some (Ok (records' ++ new)).
Proof.
  revert pos records. induction fuel as [|fuel IH]; intros pos records H;
    [discriminate H |].
  cbn [scan_segment] in *.
  destruct (scan_step segment pos) as [[[[r|] pos']|]|e].
  - destruct (IH _ _ H) as (new & -> & Hnew). exists (r :: new).
    split; [by rewrite <- app_assoc |].
    intros records'. rewrite Hnew. by rewrite <- app_assoc.
  - destruct (IH _ _ H) as (new & -> & Hnew). by exists new.
  - injection H as <-. exists []. split; [by rewrite app_nil_r |].
    intros records'. by rewrite app_nil_r.
  - discriminate H.
Qed.

Lemma scan_segments_acc (fuel : nat) (segments : list bytes)
    (records out : list AvlRecord) :
  scan_segments fuel segments records = Some (Ok out) →
  ∃ new, out = records ++ new ∧
         ∀ records', scan_segments fuel segments records'
                     = Some (Ok (records' ++ new)).
Proof.
  revert records. induction segments as [|segment rest IH]; intros records H.
  - injection H as <-. exists []. split; [by rewrite app_nil_r |].
    intros records'. cbn. by rewrite app_nil_r.
  - cbn [scan_segments] in *.
    destruct (scan_segment fuel segment 0 records) as [[mid|e]|] eqn:E;
      try discriminate H.
    destruct (scan_segment_acc _ _ _ _ _ E) as (new1 & -> & Hnew1).
    destruct (IH _ H) as (new2 & -> & Hnew2). exists (new1 ++ new2).
    split; [by rewrite <- app_assoc |].
    intros records'. rewrite Hnew1, Hnew2. by rewrite <- app_assoc.
Qed.

Lemma scan_segments_app (fuel : nat) (l1 l2 : list bytes)
    (r1 r2 : list AvlRecord) :
  scan_segments fuel l1 [] = Some (Ok r1) →
  scan_segments fuel l2 [] = Some (Ok r2) →
  scan_segments fuel (l1 ++ l2) [] = Some (Ok (r1 ++ r2)).
Proof.
  intros H1 H2.
  destruct (scan_segments_acc _ _ _ _ H2) as (new2 & Hr2 & Hnew2).
  cbn [app] in Hr2. subst new2. clear H2.
  revert r1 H1. generalize (@nil AvlRecord) as acc.
  induction l1 as [|segment rest IH]; intros acc r1 H1.
  - injection H1 as <-. apply Hnew2.
  - cbn [scan_segments app] in *.
    destruct (scan_segment fuel segment 0 acc) as [[mid|e]|];
      try discriminate H1.
    by apply IH.
Qed.

(** The parts before and behind a delimiter are segmented apart. *)
Lemma iter_segments_delimiter (f rest : string) :
  all_chars (λ c, negb (is_space c)) f = true →
  all_chars (λ c, negb (is_space c)) rest = true →
  occurs HEX_DELIMITER (upper f) = false →
  iter_segments (f +:+ HEX_DELIMITER +:+ rest) =
  iter_segments f ++ iter_segments rest.
Proof.
  intros Hf Hrest Hocc. unfold iter_segments. cbv zeta.
  rewrite !strip_no_space; try done.
  2: { rewrite !all_chars_app, Hf, Hrest. done. }
  rewrite !upper_app.
  change (upper HEX_DELIMITER) with HEX_DELIMITER.
  replace (String.eqb (upper f +:+ HEX_DELIMITER +:+ upper rest) EmptyString)
    with false by by destruct (upper f).
  rewrite split_fragment by done. cbn [omap list_omap].
  rewrite (split_no_occurrence (upper f)) by done.
  destruct (upper rest) eqn:Er.
  - cbn. destruct (upper f); cbn [String.eqb]; [done |].
    cbn [omap list_omap]. destruct (segment_of_part _); by rewrite ?app_nil_r.
  - replace (String.eqb (String a s) EmptyString) with false by done.
    destruct (upper f) eqn:Ef; cbn [String.eqb].
    + done.
    + cbn [omap list_omap]. by destruct (segment_of_part (String a0 s0)).
Qed.

(** X9: a delimiter separates.  For ASCII texts without whitespace, with
    no delimiter inside the first, the segments of [f + delimiter + rest] are
    those of [f] followed by those of [rest], and so are the records:
    nothing in a segment, not even a frame cut short, changes what is
    decoded behind the next delimiter. *)
Theorem parse_avl_data_delimiter (f rest : string) (fuel : nat)
    (r1 r2 : list AvlRecord) :
  ascii_text f = true → ascii_text rest = true →
  all_chars (λ c, negb (is_space c)) f = true →
  all_chars (λ c, negb (is_space c)) rest = true →
  occurs HEX_DELIMITER (upper f) = false →
  iter_segments (f +:+ HEX_DELIMITER +:+ rest) =
    iter_segments f ++ iter_segments rest ∧
  (parse_avl_data fuel f = Some (Ok r1) →
   parse_avl_data fuel rest = Some (Ok r2) →
   parse_avl_data fuel (f +:+ HEX_DELIMITER +:+ rest) = Some (Ok (r1 ++ r2))).
Proof.
  intros _ _ Hf Hrest Hocc.
  split; [by apply iter_segments_delimiter |].
  unfold parse_avl_data. rewrite iter_segments_delimiter by done.
  apply scan_segments_app.
Qed.

Lemma parse_avl_data_delimiter_witness :
  timestamps_of
    (parse_avl_data 80 ((frame_a_corrupt +:+ frame_b) +:+ HEX_DELIMITER +:+ frame_b))
  = Some (Ok [1577836800000; 1577836801000]).
Proof.
  destruct (parse_avl_data_delimiter (frame_a_corrupt +:+ frame_b) frame_b 80
              (take 1 two_frames_records) (drop 1 two_frames_records))
    as [_ ->]; try (vm_compute; reflexivity).
Defined.

(** ** Sizes *)

Lemma length_drop_last (s : string) :
  (String.length (drop_last s) ≤ String.length s)%nat.
Proof.
  induction s as [|c s IH]; [done |].
  destruct s as [|d s]; [cbn; lia |].
  change (S (String.length (drop_last (String d s))) ≤ S (String.length (String d s)))%nat.
  lia.
Qed.

(** Two characters at least go into every byte. *)
Lemma fromhex_length (n : nat) (s : string) (bs : bytes) :
  (String.length s ≤ n)%nat → fromhex s = Some bs →
  (2 * length bs ≤ String.length s)%nat.
Proof.
  revert s bs. induction n as [|n IH]; intros s bs Hlen H.
  { destruct s; [injection H as <-; cbn; lia | cbn in Hlen; lia]. }
  destruct s as [|a s]; [injection H as <-; cbn; lia |].
  cbn [String.length] in *. cbn [fromhex] in H.
  destruct (is_hex_space a).
  { apply IH in H; lia. }
  destruct (hex_digit a) as [top|]; [| discriminate H].
  destruct s as [|b s]; [discriminate H |].
  destruct (hex_digit b) as [bot|]; [| discriminate H].
  cbn [String.length] in *.
  destruct (fromhex s) as [bs'|] eqn:E; [| discriminate H].
  injection H as <-. apply IH in E; [| lia]. cbn [length]. lia.
Qed.

Lemma segment_of_part_length (part : string) (bs : bytes) :
  segment_of_part part = Some bs →
  (2 * length bs ≤ String.length part)%nat.
Proof.
  unfold segment_of_part. destruct (String.eqb part EmptyString); [done |].
  intros H. eapply fromhex_length in H; [| done].
  pose proof (length_drop_last part).
  destruct (Nat.odd (String.length part)); lia.
Qed.

Lemma segments_total_length (parts : list string) :
  (2 * sum_list (length <$> omap segment_of_part parts)
   ≤ sum_list (String.length <$> parts))%nat.
Proof.
  induction parts as [|part parts IH]; [done |].
  cbn [omap list_omap fmap list_fmap sum_list sum_list_with id].
  destruct (segment_of_part part) as [bs|] eqn:E.
  - apply segment_of_part_length in E.
    cbn [fmap list_fmap sum_list sum_list_with id]. lia.
  - lia.
Qed.

Lemma push_char_total_length (c : ascii) (parts : list string) :
  sum_list (String.length <$> push_char c parts)
  = S (sum_list (String.length <$> parts)).
Proof. by destruct parts. Qed.

(** Splitting loses the delimiters and nothing else. *)
Lemma split_total_length (sep s : string) (skip : nat) :
  (sum_list (String.length <$> split_from sep s skip) ≤ String.length s)%nat.
Proof.
  revert skip. induction s as [|c s IH]; intros skip; [done |].
  cbn [split_from String.length]. destruct skip as [|k].
  - destruct (String.prefix sep (String c s)).
    + cbn [fmap list_fmap sum_list sum_list_with id String.length].
      specialize (IH (String.length sep - 1)%nat). lia.
    + rewrite push_char_total_length. specialize (IH O). lia.
  - specialize (IH k). lia.
Qed.

Lemma length_lstrip (s : string) :
  (String.length (lstrip s) ≤ String.length s)%nat.
Proof.
  induction s as [|c s IH]; [done |].
  cbn [lstrip]. destruct (is_space c); cbn [String.length]; lia.
Qed.

Lemma length_rstrip (s : string) :
  (String.length (rstrip s) ≤ String.length s)%nat.
Proof.
  induction s as [|c s IH]; [done |].
  cbn [rstrip]. destruct (rstrip s) as [|d r].
  - destruct (is_space c); cbn [String.length]; lia.
  - cbn [String.length] in *. lia.
Qed.

Lemma iter_segments_total_length (raw_hex : string) :
  (2 * sum_list (length <$> iter_segments raw_hex)
   ≤ String.length raw_hex)%nat.
Proof.
  unfold iter_segments. cbv zeta.
  destruct (String.eqb _ _); [cbn; lia |].
  pose proof (segments_total_length
                (split (upper (strip raw_hex)) HEX_DELIMITER)) as H1.
  pose proof (split_total_length HEX_DELIMITER (upper (strip raw_hex)) 0) as H2.
  fold (split (upper (strip raw_hex)) HEX_DELIMITER) in H2.
  rewrite length_upper in H2. unfold strip in *.
  pose proof (length_rstrip (lstrip raw_hex)).
  pose proof (length_lstrip raw_hex). lia.
Qed.

(** Every record takes 32 bytes of its segment. *)
Lemma scan_segment_count (fuel : nat) (segment : bytes) (pos : Z)
    (records out : list AvlRecord) :
  scan_segment fuel segment pos records = Some (Ok out) →
  ∃ new, out = records ++ new ∧
         32 * Z.of_nat (length new) ≤ Z.max (len segment - pos) 0.
Proof.
  revert pos records. induction fuel as [|fuel IH]; intros pos records H;
    [discriminate H |].
  cbn [scan_segment] in H.
  destruct (scan_step_cases segment pos)
    as [[E _] | (o & Hpos & Hf & [(_ & _ & E) | (_ & p & s & _ & _ & Hr)])].
  - rewrite E in H. injection H as <-. exists [].
    split; [by rewrite app_nil_r | cbn; lia].
  - rewrite E in H. apply IH in H as (new & -> & Hnew). exists new.
    split; [done |].
    pose proof (find_timestamp_offset_some _ _ _ Hf) as [Ho _]. lia.
  - cbv zeta in Hr. destruct Hr as [Hr E]. rewrite E in H.
    apply read_record_cursor in Hr.
    pose proof (find_timestamp_offset_some _ _ _ Hf) as [Ho _].
    apply IH in H as (new & -> & Hnew). eexists (_ :: new).
    split; [by rewrite <- app_assoc |]. cbn [length]. lia.
Qed.

Lemma scan_segments_count (fuel : nat) (segments : list bytes)
    (records out : list AvlRecord) :
  scan_segments fuel segments records = Some (Ok out) →
  ∃ new, out = records ++ new ∧
         (32 * length new ≤ sum_list (length <$> segments))%nat.
Proof.
  revert records. induction segments as [|segment rest IH]; intros records H.
  - injection H as <-. exists []. split; [by rewrite app_nil_r | cbn; lia].
  - cbn [scan_segments] in H.
    destruct (scan_segment fuel segment 0 records) as [[mid|e]|] eqn:E;
      try discriminate H.
    apply scan_segment_count in E as (new1 & -> & Hnew1).
    apply IH in H as (new2 & -> & Hnew2). exists (new1 ++ new2).
    split; [by rewrite <- app_assoc |].
    rewrite length_app. cbn [fmap list_fmap sum_list sum_list_with id].
    unfold len in Hnew1. lia.
Qed.

Lemma enough_fuel_total (segments : list bytes) :
  (enough_fuel segments ≤ S (sum_list (length <$> segments)))%nat.
Proof.
  unfold enough_fuel. apply le_n_S.
  induction segments as [|segment rest IH]; [done |].
  cbn [foldr fmap list_fmap sum_list sum_list_with id]. lia.
Qed.

(** X10: sizes.  The segments of an ASCII input hold, taken together, at most
    one byte for every two characters of it; [parse_avl_data] returns at
    most one record for every 64 characters of its input (every record
    takes 32 bytes of its segment), so none for fewer than 64; and as
    many loop iterations as the input has pairs of characters, plus one,
    always suffice. *)
Theorem parse_avl_data_sizes (raw_hex : string) :
  ascii_text raw_hex = true →
  (2 * sum_list (length <$> iter_segments raw_hex)
   ≤ String.length raw_hex)%nat ∧
  (∀ fuel records, parse_avl_data fuel raw_hex = Some (Ok records) →
     (64 * length records ≤ String.length raw_hex)%nat) ∧
  (∃ records,
     parse_avl_data (S (String.length raw_hex / 2)) raw_hex =
     Some (Ok records)).
Proof.
  intros _. pose proof (iter_segments_total_length raw_hex) as Htotal.
  split; [done |]. split.
  - intros fuel records H. unfold parse_avl_data in H.
    apply scan_segments_count in H as (new & -> & Hnew).
    cbn [app]. lia.
  - unfold parse_avl_data.
    destruct (scan_segments_terminate (iter_segments raw_hex) [])
      as [records Hrec].
    exists records. apply Hrec.
    pose proof (enough_fuel_total (iter_segments raw_hex)).
    assert (sum_list (length <$> iter_segments raw_hex)
            ≤ String.length raw_hex / 2)%nat
      by (apply Nat.div_le_lower_bound; lia).
    lia.
Qed.

Lemma parse_avl_data_sizes_witness :
  (64 * length two_frames_records
   ≤ String.length (frame_a +:+ frame_b))%nat.
Proof.
  destruct (parse_avl_data_sizes (frame_a +:+ frame_b)) as (_ & H & _);
    [vm_compute; reflexivity |].
  apply (H 80%nat). vm_compute; reflexivity.
Defined.

(** ** Letter case and margins *)

Lemma is_space_upper_char (c : ascii) : is_space (upper_char c) = is_space c.
Proof. by destruct c as [[] [] [] [] [] [] [] []]. Qed.

Lemma lstrip_upper (s : string) : lstrip (upper s) = upper (lstrip s).
Proof.
  induction s as [|c s IH]; [done |].
  cbn [upper lstrip]. rewrite is_space_upper_char.
  by destruct (is_space c).
Qed.

Lemma rstrip_upper (s : string) : rstrip (upper s) = upper (rstrip s).
Proof.
  induction s as [|c s IH]; [done |].
  cbn [upper rstrip]. rewrite IH, is_space_upper_char.
  destruct (rstrip s); [by destruct (is_space c) | done].
Qed.

Lemma strip_upper (s : string) : strip (upper s) = upper (strip s).
Proof. unfold strip. by rewrite lstrip_upper, rstrip_upper. Qed.

Lemma rstrip_spaces (ws : string) :
  all_chars is_space ws = true → rstrip ws = EmptyString.
Proof.
  induction ws as [|c ws IH]; [done |].
  cbn [all_chars rstrip]. intros [Hc Hws]%andb_true_iff.
  by rewrite IH, Hc.
Qed.

Lemma lstrip_margin (ws s : string) :
  all_chars is_space ws = true → lstrip (ws +:+ s) = lstrip s.
Proof.
  induction ws as [|c ws IH]; [done |].
  cbn [all_chars]. intros [Hc Hws]%andb_true_iff.
  rewrite append_cons. cbn [lstrip]. rewrite Hc. by apply IH.
Qed.

Lemma rstrip_margin (s ws : string) :
  all_chars is_space ws = true → rstrip (s +:+ ws) = rstrip s.
Proof.
  intros Hws. induction s as [|c s IH].
  - rewrite append_empty. by apply rstrip_spaces.
  - rewrite append_cons. cbn [rstrip]. by rewrite IH.
Qed.

Lemma lstrip_spaces (ws : string) :
  all_chars is_space ws = true → lstrip ws = EmptyString.
Proof.
  induction ws as [|c ws IH]; [done |].
  cbn [all_chars lstrip]. intros [Hc Hws]%andb_true_iff.
  rewrite Hc. by apply IH.
Qed.

Lemma strip_margin_right (s ws : string) :
  all_chars is_space ws = true → strip (s +:+ ws) = strip s.
Proof.
  intros Hws. unfold strip. induction s as [|c s IH].
  - rewrite append_empty. by rewrite lstrip_spaces.
  - rewrite append_cons. cbn [lstrip]. destruct (is_space c); [done |].
    rewrite <- append_cons. by apply rstrip_margin.
Qed.

(** What [iter_segments] splits is the same for a text and for a text
    that differs from it in letter case and in whitespace at both ends. *)
Lemma clean_text_invariant (raw raw' ws1 ws2 : string) :
  upper raw = upper raw' →
  all_chars is_space ws1 = true → all_chars is_space ws2 = true →
  upper (strip (ws1 +:+ raw' +:+ ws2)) = upper (strip raw).
Proof.
  intros Hup H1 H2.
  assert (strip (ws1 +:+ raw' +:+ ws2) = strip raw') as ->.
  { transitivity (strip (raw' +:+ ws2)).
    - unfold strip. by rewrite lstrip_margin.
    - by apply strip_margin_right. }
  by rewrite <- !strip_upper, Hup.
Qed.

(** X11: letter case and margins do not matter.  Two ASCII texts that
    differ in letter case only, one of them with whitespace put in front
    of it and behind it, have the same segments and the same records; a
    delimiter in lower case separates like one in upper case. *)
Theorem parse_avl_data_case_and_margins (raw raw' ws1 ws2 : string)
    (fuel : nat) :
  ascii_text raw = true → ascii_text raw' = true →
  upper raw = upper raw' →
  all_chars is_space ws1 = true → all_chars is_space ws2 = true →
  iter_segments (ws1 +:+ raw' +:+ ws2) = iter_segments raw ∧
  parse_avl_data fuel (ws1 +:+ raw' +:+ ws2) = parse_avl_data fuel raw.
Proof.
  intros _ _ Hup H1 H2.
  assert (iter_segments (ws1 +:+ raw' +:+ ws2) = iter_segments raw) as Hseg.
  { unfold iter_segments. cbv zeta.
    by rewrite (clean_text_invariant raw raw'). }
  split; [done |]. unfold parse_avl_data. by rewrite Hseg.
Qed.

Lemma parse_avl_data_case_and_margins_witness :
  parse_avl_data 80 (" " +:+ hex (hex_bytes (frame_b +:+ HEX_DELIMITER +:+ frame_b)) +:+ line_end)
  = Some (Ok [frame_b_record; frame_b_record]).
Proof.
  destruct (parse_avl_data_case_and_margins
              (frame_b +:+ HEX_DELIMITER +:+ frame_b)
              (hex (hex_bytes (frame_b +:+ HEX_DELIMITER +:+ frame_b)))
              " " line_end 80) as [_ ->]; vm_compute; reflexivity.
Defined.

(** ** Signed fields *)

(** X12: signed big-endian fields.  For [n >= 1] bytes, [_to_signed] with
    the width [8 * n] returns without an exception a value of the signed
    range of that width, equal to the unsigned reading modulo [2 ^ (8 * n)];
    and it gives back every value of that range from its two's complement
    encoding in [n] bytes. *)
Theorem to_signed_big_endian (n : nat) :
  (1 ≤ n)%nat →
  (∀ raw, length raw = n →
     ∃ v, _to_signed raw (8 * Z.of_nat n) = Ok v ∧
          - 2 ^ (8 * Z.of_nat n - 1) ≤ v < 2 ^ (8 * Z.of_nat n - 1) ∧
          v mod 2 ^ (8 * Z.of_nat n) = from_bytes raw) ∧
  (∀ v, - 2 ^ (8 * Z.of_nat n - 1) ≤ v < 2 ^ (8 * Z.of_nat n - 1) →
     _to_signed (to_bytes n (v mod 2 ^ (8 * Z.of_nat n))) (8 * Z.of_nat n)
     = Ok v).
Proof.
  intros Hn.
  assert (256 ^ Z.of_nat n = 2 ^ (8 * Z.of_nat n)) as Hpow
    by (change 256 with (2 ^ 8); rewrite <- Z.pow_mul_r; lia).
  split.
  - intros raw Hlen. unfold _to_signed. cbv zeta.
    rewrite to_signed_int_ok by lia. eexists. split; [done |].
    pose proof (from_bytes_range raw) as Hr. unfold len in Hr.
    rewrite Hlen, Hpow in Hr.
    split; [by apply twos_complement_range; [lia |] |].
    unfold twos_complement. destruct (_ <=? _).
    + rewrite <- (Z.mod_small (from_bytes raw) (2 ^ (8 * Z.of_nat n))) at 2
        by done.
      rewrite <- Z.mod_add with (b := 1) by lia.
      f_equal. lia.
    + by apply Z.mod_small.
  - intros v Hv. unfold _to_signed. cbv zeta.
    rewrite from_bytes_to_bytes
      by (rewrite Hpow; apply mod_range; lia).
    rewrite to_signed_int_ok by lia. f_equal.
    apply twos_complement_mod; [lia | done].
Qed.

Lemma to_signed_big_endian_witness :
  _to_signed (to_bytes 4 ((-143215000) mod 2 ^ 32)) 32 = Ok (-143215000).
Proof.
  destruct (to_signed_big_endian 4) as [_ H]; [lia |].
  apply (H (-143215000)). lia.
Defined.

(** ** Frames behind a rejected or decoded candidate *)








(** A rejected frame can hide the next one as well.  [frame_c] decodes,
    and so does [frame_b] behind it; with a total of 257 the decoder
    rejects [frame_c], the scan resumes one byte further, the locator
    accepts offset 9 inside the rejected frame, the decoder reads a record
    there with a truncated IO group and returns the end of the segment,
    and [frame_b], which is located and decodes at its offset 36, is never
    decoded. *)
Lemma rejected_frame_hides_next_frame :
  iter_segments (frame_c_bad_total ++ frame_b) = [rejected_with_candidate] ∧
  timestamps_of (parse_avl_data 80 (frame_c ++ frame_b))
    = Some (Ok [1577836800000; 1577836801000]) ∧
  read_record rejected_with_candidate 0 = Ok (None, 1) ∧
  find_timestamp_offset rejected_with_candidate 1 = Ok (Some 9) ∧
  (timestamp_ms <$> record_at rejected_with_candidate 9 = Some 1577836803000 ∧
   snd <$> read_record rejected_with_candidate 9 = Ok 72) ∧
  timestamps_of (parse_avl_data 80 (frame_c_bad_total ++ frame_b))
    = Some (Ok [1577836803000]) ∧
  find_timestamp_offset rejected_with_candidate 36 = Ok (Some 36) ∧
  record_at rejected_with_candidate 36 = Some frame_b_record.
Proof. vm_compute. repeat split; reflexivity. Qed.
